(** * Q-Bloch SDK: the state-vector engine and the circuit executor

    A shallow embedding of [lib/quantum.ts], [lib/complex.ts] and of the
    circuit bookkeeping of the visualizer page, the circuit builder and the
    validation panel.

    - JavaScript numbers that hold amplitudes are IEEE-754 binary64 values:
      Rocq's primitive [float].
    - JavaScript numbers that are used as indices, qubit numbers and steps are
      integers: [Z]; the bit operators work on their 32-bit two's complement
      reading, with the shift count taken modulo 32.
    - An array is a list of cells; a cell is [None] when it holds
      [undefined].
    - An exception is a [Throw] of the [result] monad. *)

From Stdlib Require Import ZArith Lia.
From Stdlib Require Import Floats.PrimFloat Floats.SpecFloat Floats.FloatOps Floats.FloatAxioms.
From Stdlib Require Import Ascii Decimal DecimalString DecimalPos DecimalZ.
From stdpp Require Import base list numbers strings sorting.

Open Scope Z_scope.

(** ** Exceptions *)

Inductive exn : Type :=
  | TypeError                      (* a property of [undefined] is read *)
  | RangeError                     (* [new Array(n)] with an invalid length *)
  | Error_InvalidQubitIndex (q : Z) (* [new Error(`Invalid qubit index: ${q}`)] *).

Inductive result (A : Type) : Type :=
  | Ok (a : A)
  | Throw (e : exn).
Arguments Ok {A} a.
Arguments Throw {A} e.

#[export] Instance result_ret : MRet result := λ A a, Ok a.
#[export] Instance result_bind : MBind result :=
  λ A B f r, match r with Ok a => f a | Throw e => Throw e end.

(** A [for] loop whose body may throw: the statements run from left to
    right and the first exception leaves the loop. *)
Fixpoint foldlM {A S : Type} (body : S → A → result S) (s : S) (l : list A)
  : result S :=
  match l with
  | [] => Ok s
  | x :: l' => s' ← body s x; foldlM body s' l'
  end.

(** ** JavaScript integers and arrays *)

Module JS.

(** [ToInt32]: the 32-bit two's complement reading of an integer. *)
Definition ToInt32 (x : Z) : Z := (x + 2 ^ 31) `mod` 2 ^ 32 - 2 ^ 31.

(** The shift count of [<<] and [>>] is [ToUint32(k) & 31]. *)
Definition shiftCount (k : Z) : Z := k `mod` 32.

(** [x >> k] *)
Definition sar (x k : Z) : Z := Z.shiftr (ToInt32 x) (shiftCount k).
(** [x << k] *)
Definition shl (x k : Z) : Z := ToInt32 (Z.shiftl (ToInt32 x) (shiftCount k)).
(** [x & y] *)
Definition band (x y : Z) : Z := Z.land (ToInt32 x) (ToInt32 y).
(** [x | y] *)
Definition bor (x y : Z) : Z := Z.lor (ToInt32 x) (ToInt32 y).
(** [x ^ y] *)
Definition bxor (x y : Z) : Z := Z.lxor (ToInt32 x) (ToInt32 y).
(** [~x] *)
Definition bnot (x : Z) : Z := Z.lnot (ToInt32 x).

(** [a[i]] on an array whose cells are never [undefined] by themselves
    (a gate matrix, a density matrix): [None] outside the array. *)
Definition idx {A : Type} (a : list A) (i : Z) : option A :=
  if i <? 0 then None else a !! Z.to_nat i.

(** [a[i]] on an array of cells: [undefined] outside the array. *)
Definition get {A : Type} (a : list (option A)) (i : Z) : option A :=
  mjoin (idx a i).

(** [a[i] = v]: inside the array the cell is overwritten; past its end the
    array grows, the cells in between being holes; a negative [i] is not
    an array index, the assignment makes a property of that name and the
    cells stay as they are. *)
Definition set {A : Type} (a : list (option A)) (i : Z) (v : option A)
  : list (option A) :=
  if i <? 0 then a
  else
    let k := Z.to_nat i in
    if (k <? length a)%nat then <[k := v]> a
    else a ++ replicate (k - length a)%nat None ++ [v].

(** A method call on a cell: [undefined.m(...)] throws a [TypeError]. *)
Definition defined {A : Type} (c : option A) : result A :=
  match c with
  | Some v => Ok v
  | None => Throw TypeError
  end.

(** The greatest length of an array. *)
Definition maxArrayLength : Z := 2 ^ 32 - 1.

(** [Math.max(...xs, d)] on integers. *)
Definition Math_max (xs : list Z) (d : Z) : Z := foldr Z.max d xs.

End JS.

(** ** [class Complex]

    [phase] and [toString] serve the display only and are left out. *)

Module Complex.

Record t : Type := mk { real : float; imaginary : float }.

Definition add (this other : t) : t :=
  mk (real this + real other)%float (imaginary this + imaginary other)%float.

Definition subtract (this other : t) : t :=
  mk (real this - real other)%float (imaginary this - imaginary other)%float.

Definition multiply (this other : t) : t :=
  mk (real this * real other - imaginary this * imaginary other)%float
     (real this * imaginary other + imaginary this * real other)%float.

Definition conjugate (this : t) : t :=
  mk (real this) (- imaginary this)%float.

Definition magnitude (this : t) : float :=
  sqrt (real this * real this + imaginary this * imaginary this)%float.

End Complex.

Abbreviation Complex := Complex.t.

(** ** [class QuantumState] *)

Module QuantumState.

Record t : Type := mk {
  amplitudes : list (option Complex);
  numQubits : Z
}.

Record BlochVector : Type := mkBloch { x : float; y : float; z : float }.

(** The amplitudes of [|00...0⟩]:
    [new Array(size).fill(null).map((_, i) => new Complex(i === 0 ? 1 : 0, 0))]. *)
Definition zeroAmplitudes (size : nat) : list (option Complex) :=
  (λ i : nat, Some (Complex.mk (if (i =? 0)%nat then 1 else 0) 0)) <$> seq 0 size.

(** [new QuantumState(numQubits, initialState?)].  With [initialState]
    the amplitudes are a copy of it, whatever its length.  Without it
    [new Array(Math.pow(2, numQubits))] throws a [RangeError] unless
    [2^numQubits] is an integer below [2^32]. *)
Definition constructor (numQubits : Z)
    (initialState : option (list (option Complex))) : result t :=
  match initialState with
  | Some init => Ok (mk init numQubits)
  | None =>
      if (0 <=? numQubits) && (numQubits <=? 31)
      then Ok (mk (zeroAmplitudes (Z.to_nat (2 ^ numQubits))) numQubits)
      else Throw RangeError
  end.

Definition getAmplitudes (this : t) : list (option Complex) := amplitudes this.

Definition getNumQubits (this : t) : Z := numQubits this.

(** [getDensityMatrix]: row [i], column [j] holds
    [amplitudes[i].multiply(amplitudes[j].conjugate())]. *)
Definition getDensityMatrix (this : t) : result (list (list Complex)) :=
  mapM (λ ci,
    mapM (λ cj,
      ai ← JS.defined ci;
      aj ← JS.defined cj;
      Ok (Complex.multiply ai (Complex.conjugate aj)))
      (amplitudes this))
    (amplitudes this).

(** One visit [(i, j)] of the partial trace.  The assignment to
    [reducedRho[iBit][jBit]] follows a read of the same entry, so it stays
    inside the matrix. *)
Definition traceStep (pos : Z) (rho : list (list Complex))
    (i : nat) (reducedRho : list (list Complex)) (j : nat)
  : result (list (list Complex)) :=
  let iBit := JS.band (JS.sar (Z.of_nat i) pos) 1 in
  let jBit := JS.band (JS.sar (Z.of_nat j) pos) 1 in
  let iOther := JS.band (Z.of_nat i) (JS.bnot (JS.shl 1 pos)) in
  let jOther := JS.band (Z.of_nat j) (JS.bnot (JS.shl 1 pos)) in
  if iOther =? jOther then
    cur ← JS.defined (JS.idx reducedRho iBit ≫= λ row, JS.idx row jBit);
    r ← JS.defined (JS.idx rho (Z.of_nat i) ≫= λ row, JS.idx row (Z.of_nat j));
    Ok (alter (λ row, <[Z.to_nat jBit := Complex.add cur r]> row)
              (Z.to_nat iBit) reducedRho)
  else Ok reducedRho.

Definition getReducedDensityMatrix (this : t) (qubitIndex : Z)
  : result (list (list Complex)) :=
  if qubitIndex >=? numQubits this then Throw (Error_InvalidQubitIndex qubitIndex)
  else
    rho ← getDensityMatrix this;
    let size := length (amplitudes this) in
    let pos := numQubits this - 1 - qubitIndex in
    foldlM (λ reducedRho i, foldlM (traceStep pos rho i) reducedRho (seq 0 size))
      [[Complex.mk 0 0; Complex.mk 0 0]; [Complex.mk 0 0; Complex.mk 0 0]]
      (seq 0 size).

Definition getBlochVector (this : t) (qubitIndex : Z) : result BlochVector :=
  rho ← getReducedDensityMatrix this qubitIndex;
  rho00 ← JS.defined (JS.idx rho 0 ≫= λ row, JS.idx row 0);
  rho01 ← JS.defined (JS.idx rho 0 ≫= λ row, JS.idx row 1);
  rho10 ← JS.defined (JS.idx rho 1 ≫= λ row, JS.idx row 0);
  rho11 ← JS.defined (JS.idx rho 1 ≫= λ row, JS.idx row 1);
  let sigmaX := Complex.add rho01 rho10 in
  let sigmaY := Complex.multiply (Complex.subtract rho01 rho10) (Complex.mk 0 (-1)) in
  let sigmaZ := Complex.subtract rho00 rho11 in
  Ok (mkBloch (Complex.real sigmaX) (Complex.real sigmaY) (Complex.real sigmaZ)).

(** The body of the inner loop of [applyGate], for one [newQubitBit]. *)
Definition gateStep (amps : list (option Complex)) (gate : list (list Complex))
    (pos : Z) (state : nat) (newAmplitudes : list (option Complex))
    (newQubitBit : Z) : result (list (option Complex)) :=
  let qubitBit := JS.band (JS.sar (Z.of_nat state) pos) 1 in
  let otherBits := JS.band (Z.of_nat state) (JS.bnot (JS.shl 1 pos)) in
  let newState := JS.bor otherBits (JS.shl newQubitBit pos) in
  gateElement ← JS.defined (JS.idx gate newQubitBit ≫= λ row, JS.idx row qubitBit);
  cur ← JS.defined (JS.get newAmplitudes newState);
  amp ← JS.defined (JS.get amps (Z.of_nat state));
  Ok (JS.set newAmplitudes newState
        (Some (Complex.add cur (Complex.multiply amp gateElement)))).

(** The two loops of [applyGate] on the array [newAmplitudes]. *)
Definition gatePass (amps : list (option Complex)) (gate : list (list Complex))
    (pos : Z) : result (list (option Complex)) :=
  foldlM (λ newAmplitudes state,
            foldlM (gateStep amps gate pos state) newAmplitudes [0; 1])
    (replicate (length amps) (Some (Complex.mk 0 0)))
    (seq 0 (length amps)).

Definition applyGate (this : t) (gate : list (list Complex)) (qubitIndex : Z)
  : result t :=
  newAmplitudes ← gatePass (amplitudes this) gate (numQubits this - 1 - qubitIndex);
  constructor (numQubits this) (Some newAmplitudes).

(** The body of the loop of [applyCNOT].  The source also computes
    [targetBit] and [newTargetBit], which nothing reads. *)
Definition cnotStep {A : Type} (controlPos targetPos : Z)
    (newAmplitudes : list (option A)) (state : nat) : list (option A) :=
  let controlBit := JS.band (JS.sar (Z.of_nat state) controlPos) 1 in
  if controlBit =? 1 then
    let newState := JS.bxor (Z.of_nat state) (JS.shl 1 targetPos) in
    let temp := JS.get newAmplitudes (Z.of_nat state) in
    let newAmplitudes :=
      JS.set newAmplitudes (Z.of_nat state) (JS.get newAmplitudes newState) in
    JS.set newAmplitudes newState temp
  else newAmplitudes.

(** The loop of [applyCNOT] on the copy [newAmplitudes = [...amps]]. *)
Definition cnotPass {A : Type} (amps : list (option A)) (controlPos targetPos : Z)
  : list (option A) :=
  foldl (cnotStep controlPos targetPos) amps (seq 0 (length amps)).

Definition applyCNOT (this : t) (controlQubit targetQubit : Z) : result t :=
  let newAmplitudes :=
    cnotPass (amplitudes this)
      (numQubits this - 1 - controlQubit) (numQubits this - 1 - targetQubit) in
  constructor (numQubits this) (Some newAmplitudes).

End QuantumState.

Abbreviation QuantumState := QuantumState.t.

(** ** [QuantumGates] *)

Module QuantumGates.

Definition c (re im : float) : Complex := Complex.mk re im.

Definition X : list (list Complex) :=
  [[c 0 0; c 1 0];
   [c 1 0; c 0 0]].

Definition Y : list (list Complex) :=
  [[c 0 0; c 0 (-1)];
   [c 0 1; c 0 0]].

Definition Z : list (list Complex) :=
  [[c 1 0; c 0 0];
   [c 0 0; c (-1) 0]].

Definition H : list (list Complex) :=
  [[c (1 / sqrt 2) 0; c (1 / sqrt 2) 0];
   [c (1 / sqrt 2) 0; c (-1 / sqrt 2) 0]].

Definition S : list (list Complex) :=
  [[c 1 0; c 0 0];
   [c 0 0; c 0 1]].

Definition T : list (list Complex) :=
  [[c 1 0; c 0 0];
   [c 0 0; c (1 / sqrt 2) (1 / sqrt 2)]].

(** The rotation gates.  [Math.cos] and [Math.sin] are approximations that
    the language leaves to the implementation: they are parameters here. *)
Section rotations.
Variables Math_cos Math_sin : float → float.

Definition RX (theta : float) : list (list Complex) :=
  [[c (Math_cos (theta / 2)) 0; c 0 (- Math_sin (theta / 2))];
   [c 0 (- Math_sin (theta / 2)); c (Math_cos (theta / 2)) 0]].

Definition RY (theta : float) : list (list Complex) :=
  [[c (Math_cos (theta / 2)) 0; c (- Math_sin (theta / 2)) 0];
   [c (Math_sin (theta / 2)) 0; c (Math_cos (theta / 2)) 0]].

Definition RZ (theta : float) : list (list Complex) :=
  [[c (Math_cos (theta / 2)) (- Math_sin (theta / 2)); c 0 0];
   [c 0 0; c (Math_cos (theta / 2)) (Math_sin (theta / 2))]].
End rotations.

End QuantumGates.

(** ** The instances on the JavaScript heap

    [applyGate] and [applyCNOT] fill an array in place.  To see which array
    they write to, the amplitudes live in a heap of arrays and an instance
    holds the address of its own. *)

Module Obj.

(** An address is the index of an array in the heap. *)
Abbreviation loc := nat.
Abbreviation heap := (list (list (option Complex))).

(** The private fields of an instance of [QuantumState]. *)
Record t : Type := mk { amplitudes : loc; numQubits : Z }.

(** A computation reads and writes the heap and may throw; the writes made
    before an exception stay. *)
Definition M (A : Type) : Type := heap → result A * heap.

#[export] Instance M_ret : MRet M := λ A a h, (Ok a, h).
#[export] Instance M_bind : MBind M :=
  λ A B f m h, match m h with
               | (Ok a, h') => f a h'
               | (Throw e, h') => (Throw e, h')
               end.

Definition throw {A : Type} (e : exn) : M A := λ h, (Throw e, h).

Definition lift {A : Type} (r : result A) : M A := λ h, (r, h).

(** A new array with the cells [a]. *)
Definition alloc (a : list (option Complex)) : M loc :=
  λ h, (Ok (length h), h ++ [a]).

(** The cells of the array at [l].  Addresses come from [alloc]; reading
    one that was never allocated would be reading [undefined]. *)
Definition cells (l : loc) : M (list (option Complex)) :=
  λ h, match h !! l with
       | Some a => (Ok a, h)
       | None => (Throw TypeError, h)
       end.

(** [l.length] *)
Definition arrayLength (l : loc) : M nat := a ← cells l; mret (length a).

(** [l[i]] *)
Definition getCell (l : loc) (i : Z) : M (option Complex) :=
  a ← cells l; mret (JS.get a i).

(** [l[i] = v] *)
Definition setCell (l : loc) (i : Z) (v : option Complex) : M unit :=
  λ h, (Ok tt, alter (λ a, JS.set a i v) l h).

(** A [for] loop over [xs]. *)
Fixpoint forM {A : Type} (xs : list A) (body : A → M unit) : M unit :=
  match xs with
  | [] => mret tt
  | x :: xs' => _ ← body x; forM xs' body
  end.

(** [new QuantumState(numQubits, initialState?)]: [[...initialState]] is
    a new array. *)
Definition constructor (numQubits : Z) (initialState : option loc) : M t :=
  match initialState with
  | Some init =>
      a ← cells init;
      l ← alloc a;
      mret (mk l numQubits)
  | None =>
      if (0 <=? numQubits) && (numQubits <=? 31)
      then l ← alloc (QuantumState.zeroAmplitudes (Z.to_nat (2 ^ numQubits)));
           mret (mk l numQubits)
      else throw RangeError
  end.

(** [getAmplitudes()]: [[...this.amplitudes]]. *)
Definition getAmplitudes (this : t) : M loc :=
  a ← cells (amplitudes this); alloc a.

(** The body of the inner loop of [applyGate]; [newAmplitudes] is the
    address of the array under construction. *)
Definition gateBody (this : t) (gate : list (list Complex)) (pos : Z)
    (newAmplitudes : loc) (state : nat) (newQubitBit : Z) : M unit :=
  let qubitBit := JS.band (JS.sar (Z.of_nat state) pos) 1 in
  let otherBits := JS.band (Z.of_nat state) (JS.bnot (JS.shl 1 pos)) in
  let newState := JS.bor otherBits (JS.shl newQubitBit pos) in
  gateElement ←
    lift (JS.defined (JS.idx gate newQubitBit ≫= λ row, JS.idx row qubitBit));
  cur ← getCell newAmplitudes newState ≫= λ c, lift (JS.defined c);
  amp ← getCell (amplitudes this) (Z.of_nat state) ≫= λ c, lift (JS.defined c);
  setCell newAmplitudes newState
    (Some (Complex.add cur (Complex.multiply amp gateElement))).

Definition applyGate (this : t) (gate : list (list Complex)) (qubitIndex : Z)
  : M t :=
  let pos := numQubits this - 1 - qubitIndex in
  len ← arrayLength (amplitudes this);
  newAmplitudes ← alloc (replicate len (Some (Complex.mk 0 0)));
  _ ← forM (seq 0 len) (λ state,
         forM [0; 1] (gateBody this gate pos newAmplitudes state));
  constructor (numQubits this) (Some newAmplitudes).

(** The body of the loop of [applyCNOT]. *)
Definition cnotBody (controlPos targetPos : Z) (newAmplitudes : loc)
    (state : nat) : M unit :=
  let controlBit := JS.band (JS.sar (Z.of_nat state) controlPos) 1 in
  if controlBit =? 1 then
    let newState := JS.bxor (Z.of_nat state) (JS.shl 1 targetPos) in
    temp ← getCell newAmplitudes (Z.of_nat state);
    v ← getCell newAmplitudes newState;
    _ ← setCell newAmplitudes (Z.of_nat state) v;
    setCell newAmplitudes newState temp
  else mret tt.

Definition applyCNOT (this : t) (controlQubit targetQubit : Z) : M t :=
  let controlPos := numQubits this - 1 - controlQubit in
  let targetPos := numQubits this - 1 - targetQubit in
  a ← cells (amplitudes this);
  newAmplitudes ← alloc a;
  len ← arrayLength (amplitudes this);
  _ ← forM (seq 0 len) (cnotBody controlPos targetPos newAmplitudes);
  constructor (numQubits this) (Some newAmplitudes).

(** What [getAmplitudes()] shows of [this] in the heap [h]. *)
Definition observed (this : t) (h : heap) : option (list (option Complex)) :=
  match getAmplitudes this h with
  | (Ok l, h') => h' !! l
  | (Throw _, _) => None
  end.

End Obj.

(** ** The circuit and its executor (the visualizer page) *)

Module Circuit.

(** A placement.  The fields [name], [description] and [category] of the
    source are display texts; no computation reads them. *)
Record QuantumGate : Type := mkGate { symbol : string; qubit : Z; step : Z }.

(** [[...gates].sort((a, b) => a.step - b.step)]: [Array.prototype.sort]
    is stable, so the result is the one of a stable insertion sort. *)
Fixpoint insertByStep (g : QuantumGate) (l : list QuantumGate) : list QuantumGate :=
  match l with
  | [] => [g]
  | g' :: l' => if step g <=? step g' then g :: l else g' :: insertByStep g l'
  end.

Definition sortByStep (gates : list QuantumGate) : list QuantumGate :=
  foldr insertByStep [] gates.

(** The [switch (gate.symbol)] of both runs: the matrix of [QuantumGates]
    a symbol stands for, [None] in the [default] case. *)
Definition libraryEntry (symbol : string) : option (list (list Complex)) :=
  if String.eqb symbol "Pₓ" then Some QuantumGates.X
  else if String.eqb symbol "Pᵧ" then Some QuantumGates.Y
  else if String.eqb symbol "Pᵨ" then Some QuantumGates.Z
  else if String.eqb symbol "H" then Some QuantumGates.H
  else if String.eqb symbol "S" then Some QuantumGates.S
  else None.

(** One turn of the loop over the sorted gates. *)
Definition applySymbol (state : QuantumState) (gate : QuantumGate)
  : result QuantumState :=
  match libraryEntry (symbol gate) with
  | Some matrix => QuantumState.applyGate state matrix (qubit gate)
  | None => Ok state
  end.

(** [handleCircuitRun]: the state handed to [setQuantumState]; a [Throw]
    is caught by the page and leaves the shown state as it was. *)
Definition handleCircuitRun (numQubits : Z) (gates : list QuantumGate)
  : result QuantumState :=
  state ← QuantumState.constructor numQubits None;
  foldlM applySymbol state (sortByStep gates).

(** The loop of [updateSteppedState], with its [break]. *)
Fixpoint steppedLoop (step : Z) (state : QuantumState)
    (sortedGates : list QuantumGate) : result QuantumState :=
  match sortedGates with
  | [] => Ok state
  | gate :: rest =>
      if Circuit.step gate >=? step then Ok state
      else state' ← applySymbol state gate; steppedLoop step state' rest
  end.

(** [updateSteppedState]: the state handed to [setSteppedQuantumState]. *)
Definition updateSteppedState (numQubits : Z) (step : Z)
    (gateArray : list QuantumGate) : result QuantumState :=
  state ← QuantumState.constructor numQubits None;
  steppedLoop step state (sortByStep gateArray).

(** [handleExport]: [totalSteps]. *)
Definition totalSteps (gates : list QuantumGate) : Z :=
  JS.Math_max (step <$> gates) 0 + 1.


(** [QuantumValidation.validateCircuit]: [maxDepth]. *)
Definition maxDepth (gates : list QuantumGate) : Z :=
  JS.Math_max (step <$> gates) 0 + 1.

End Circuit.

(** ** Numbers and strings

    The page writes the two numbers of a cell into the identifier of a
    placement and reads them back.  [None] stands for a case that is left
    out here: a number above [2^53], a string that is not a plain run of
    decimal digits. *)

Module JSString.

(** [`${z}`] for an integer up to [2^53] in absolute value: its decimal
    digits, after a minus sign when it is negative.  (Above [2^53] a
    binary64 number is printed with the fewest digits that identify it,
    which are not all the digits of the integer.) *)
Definition ofNumber (z : Z) : option string :=
  if 2 ^ 53 <? Z.abs z then None
  else Some (NilZero.string_of_int (Z.to_int z)).

(** [Number(s)] for a run of decimal digits: the integer they write, which
    a binary64 number holds exactly up to [2^53]; [Number("")] is 0. *)
Definition Number (s : string) : option Z :=
  match NilEmpty.uint_of_string s with
  | Some d => if Z.of_uint d <=? 2 ^ 53 then Some (Z.of_uint d) else None
  | None => None
  end.

(** [s.split(sep)] for a separator of one character. *)
Fixpoint split (sep : ascii) (s : string) : list string :=
  match s with
  | EmptyString => [EmptyString]
  | String c s' =>
      if Ascii.eqb c sep then EmptyString :: split sep s'
      else match split sep s' with
           | part :: parts => String c part :: parts
           | [] => [String c EmptyString]
           end
  end.

(** [parts.join(sep)] *)
Fixpoint join (sep : string) (parts : list string) : string :=
  match parts with
  | [] => EmptyString
  | [part] => part
  | part :: rest => String.append part (String.append sep (join sep rest))
  end.

(** [z.toString(2)] for an integer that a binary64 number holds: its
    binary digits, after a minus sign when it is negative. *)
Fixpoint binaryDigits (p : positive) (rest : string) : string :=
  match p with
  | xH => String "1" rest
  | xO p' => binaryDigits p' (String "0" rest)
  | xI p' => binaryDigits p' (String "1" rest)
  end.

Definition toString2 (z : Z) : string :=
  match z with
  | Z0 => "0"
  | Zpos p => binaryDigits p EmptyString
  | Zneg p => String "-" (binaryDigits p EmptyString)
  end.

(** [s.padStart(targetLength, pad)] for a pad of one character. *)
Definition padStart (targetLength : Z) (pad : ascii) (s : string) : string :=
  Nat.iter (Z.to_nat (targetLength - Z.of_nat (String.length s))) (String pad) s.

End JSString.

(** ** The handlers of the visualizer page

    A handler is a function of the values it reads from the render it
    belongs to, and gives the values it hands to the setters. *)

Module Page.

(** What a run hands to [setQuantumState], [setBlochVectors] and
    [setDensityMatrices] (or to the three setters of the stepped state)
    before it ends, and whether it ended in the [catch] branch. *)
Record Updates : Type := mkUpdates {
  quantumState : option QuantumState;
  blochVectors : option (list QuantumState.BlochVector);
  densityMatrices : option (list (list (list Complex)));
  caught : bool
}.

(** [Array.from({ length }, (_, i) => f(i))] *)
Definition Array_from {A : Type} (length : Z) (f : Z → result A)
  : result (list A) :=
  if JS.maxArrayLength <? length then Throw RangeError
  else mapM (λ i : nat, f (Z.of_nat i)) (seq 0 (Z.to_nat length)).

(** The [try] block of both runs, from [setQuantumState(state)] on. *)
Definition present (numQubits : Z) (state : QuantumState) : Updates :=
  match Array_from numQubits (QuantumState.getBlochVector state) with
  | Throw _ => mkUpdates (Some state) None None true
  | Ok newBlochVectors =>
      match Array_from numQubits (QuantumState.getReducedDensityMatrix state) with
      | Throw _ => mkUpdates (Some state) (Some newBlochVectors) None true
      | Ok newDensityMatrices =>
          mkUpdates (Some state) (Some newBlochVectors) (Some newDensityMatrices)
            false
      end
  end.

Definition handleCircuitRun (numQubits : Z) (gates : list Circuit.QuantumGate)
  : Updates :=
  match Circuit.handleCircuitRun numQubits gates with
  | Throw _ => mkUpdates None None None true
  | Ok state => present numQubits state
  end.

Definition updateSteppedState (numQubits : Z) (step : Z)
    (gateArray : list Circuit.QuantumGate) : Updates :=
  match Circuit.updateSteppedState numQubits step gateArray with
  | Throw _ => mkUpdates None None None true
  | Ok state => present numQubits state
  end.

(** [handleGateSelect]: the list handed to [setGates]; the list as it was
    when the circuit is full.  [gates] is the list of the render the
    handler belongs to, to which the updater of [setGates] appends.  Of
    [gateInfo] the placement keeps the symbol (and the display texts,
    which [QuantumGate] leaves out). *)
Definition handleGateSelect (gates : list Circuit.QuantumGate)
    (selectedQubit : Z) (gateInfo : string) : list Circuit.QuantumGate :=
  if 20 <=? Z.of_nat (length gates) then gates
  else
    let maxStep :=
      JS.Math_max
        (Circuit.step <$> filter (λ g, Circuit.qubit g = selectedQubit) gates)
        (-1) in
    gates ++ [Circuit.mkGate gateInfo selectedQubit (maxStep + 1)].

(** [handleGateRemove]: [newGates].  A part of the identifier that is
    missing is [undefined], which no number equals. *)
Definition handleGateRemove (gates : list Circuit.QuantumGate) (gateId : string)
  : option (list Circuit.QuantumGate) :=
  match JSString.split "-" gateId with
  | qubitPart :: stepPart :: _ =>
      qubit ← JSString.Number qubitPart;
      step ← JSString.Number stepPart;
      Some (filter (λ g, ¬ (Circuit.qubit g = qubit ∧ Circuit.step g = step)) gates)
  | _ => Some gates
  end.

(** [handleStepForward] and [handleStepBack]: the step handed to
    [setCurrentStep], and what [updateSteppedState] then shows; the step
    as it was, and nothing shown, when the guard fails. *)
Definition handleStepForward (numQubits : Z) (currentStep : Z)
    (gates : list Circuit.QuantumGate) : Z * option Updates :=
  let maxSteps := JS.Math_max (Circuit.step <$> gates) 0 + 1 in
  if currentStep <? maxSteps then
    let newStep := currentStep + 1 in
    (newStep, Some (updateSteppedState numQubits newStep gates))
  else (currentStep, None).

Definition handleStepBack (numQubits : Z) (currentStep : Z)
    (gates : list Circuit.QuantumGate) : Z * option Updates :=
  if 0 <? currentStep then
    let newStep := currentStep - 1 in
    (newStep, Some (updateSteppedState numQubits newStep gates))
  else (currentStep, None).


End Page.

(** ** [QuantumCircuitBuilder] *)

Module Builder.

(** The number of columns of the grid. *)
Definition maxSteps (gates : list Circuit.QuantumGate) : Z :=
  JS.Math_max [8] (JS.Math_max (Circuit.step <$> gates) 0 + 2).

Definition getGateAtPosition (gates : list Circuit.QuantumGate) (qubit step : Z)
  : option Circuit.QuantumGate :=
  find (λ g, (Circuit.qubit g =? qubit) && (Circuit.step g =? step)) gates.

(** [`${gate.qubit}-${gate.step}`], the identifier a click on the badge
    of [gate] hands to [onGateRemove]. *)
Definition gateId (gate : Circuit.QuantumGate) : option string :=
  qubit ← JSString.ofNumber (Circuit.qubit gate);
  step ← JSString.ofNumber (Circuit.step gate);
  Some (String.append qubit (String.append "-" step)).

End Builder.

(** ** [QuantumValidation] *)

Module Validation.

Inductive kind : Type := error | warning | info | success.

Record ValidationResult : Type := mkResult {
  type : kind;
  message : string;
  details : string
}.

(** [list.includes(s)] *)
Definition includes (items : list string) (s : string) : bool :=
  existsb (String.eqb s) items.

(** [validateCircuit]: the messages in the order they are pushed. *)
Definition validateCircuit (gates : list Circuit.QuantumGate) (numQubits : Z)
  : option (list ValidationResult) :=
  let empty :=
    if Z.of_nat (length gates) =? 0
    then [mkResult info "Empty circuit"
            "Add gates from the toolbox to build your quantum circuit"]
    else [] in
  let complex :=
    if 20 <? Z.of_nat (length gates)
    then [mkResult error "Circuit too complex"
            "Maximum 20 gates supported for optimal performance"]
    else [] in
  let large :=
    if 15 <? Z.of_nat (length gates)
    then [mkResult warning "Large circuit detected"
            "Circuit execution may take longer than usual"]
    else [] in
  let maxDepth := Circuit.maxDepth gates in
  deep ←
    (if 10 <? maxDepth
     then depth ← JSString.ofNumber maxDepth;
          Some [mkResult warning "Deep circuit"
                  (String.append "Circuit depth is "
                     (String.append depth
                        ". Consider gate optimization for better performance"))]
     else Some []);
  let unsupportedGates :=
    filter (λ gate,
              ¬ includes ["Pₓ"; "Pᵧ"; "Pᵨ"; "H"; "S"] (Circuit.symbol gate))
      gates in
  unsupported ←
    (if 0 <? Z.of_nat (length unsupportedGates)
     then count ← JSString.ofNumber (Z.of_nat (length unsupportedGates));
          Some [mkResult warning "Unsupported gates detected"
                  (String.append count
                     (String.append " gates may not execute properly: "
                        (JSString.join ", " (Circuit.symbol <$> unsupportedGates))))]
     else Some []);
  let usedQubits := remove_dups (Circuit.qubit <$> gates) in
  let single :=
    if (Z.of_nat (length usedQubits) =? 1) && (1 <? numQubits)
    then [mkResult info "Single qubit circuit"
            "Only one qubit is being used. Consider exploring multi-qubit operations"]
    else [] in
  let hasHadamard := existsb (λ g, String.eqb (Circuit.symbol g) "H") gates in
  let hasPauliGates :=
    existsb (λ g, includes ["Pₓ"; "Pᵧ"; "Pᵨ"] (Circuit.symbol g)) gates in
  let good :=
    if hasHadamard && hasPauliGates
    then [mkResult success "Good quantum circuit"
            "Circuit contains superposition and rotation gates - excellent for learning!"]
    else [] in
  (* [Math.pow(2, numQubits)]; for a negative [numQubits] the power is a
     fraction, and 0 here: in both cases it is not above 32. *)
  let hilbertSpaceDim := 2 ^ numQubits in
  hilbert ←
    (if 32 <? hilbertSpaceDim
     then dim ← JSString.ofNumber hilbertSpaceDim;
          Some [mkResult warning "Large Hilbert space"
                  (String.append dim
                     "D space may cause performance issues on some devices")]
     else Some []);
  Some (empty ++ complex ++ large ++ deep ++ unsupported ++ single ++ good
        ++ hilbert).

End Validation.

(** ** [StepExecutionControls] *)

Module Controls.

Definition maxSteps (gates : list Circuit.QuantumGate) : Z :=
  JS.Math_max (Circuit.step <$> gates) 0 + 1.

(** The placement the panel describes. *)
Definition currentGate (gates : list Circuit.QuantumGate) (currentStep : Z)
  : option Circuit.QuantumGate :=
  find (λ g, Circuit.step g =? currentStep) gates.

(** The [disabled] flags of the buttons that step forward and back. *)
Definition forwardDisabled (gates : list Circuit.QuantumGate) (currentStep : Z)
  : bool :=
  currentStep >=? maxSteps gates.

Definition backDisabled (currentStep : Z) : bool := currentStep =? 0.

(** The lines of the progress text, one per condition that holds. *)
Definition progressInfo (gates : list Circuit.QuantumGate) (currentStep : Z)
  : option (list string) :=
  let maxSteps := maxSteps gates in
  let initial :=
    if currentStep =? 0 then ["Initial state: All qubits in |0⟩"%string] else [] in
  applied ←
    (if (0 <? currentStep) && (currentStep <? maxSteps)
     then current ← JSString.ofNumber currentStep;
          total ← JSString.ofNumber maxSteps;
          Some [String.append "Applied "
                  (String.append current
                     (String.append " of " (String.append total " gates")))]
     else Some []);
  let complete :=
    if (currentStep >=? maxSteps) && (0 <? maxSteps)
    then ["Circuit execution complete"%string] else [] in
  let none :=
    if maxSteps =? 0 then ["No gates in circuit"%string] else [] in
  Some (initial ++ applied ++ complete ++ none).

End Controls.

(** ** [ProbabilityAmplitudesPanel] *)

Module Panel.

(** The label of the basis state [index]. *)
Definition generateBasisStateLabel (numQubits : Z) (index : Z) : string :=
  String.append "|"
    (String.append (JSString.padStart numQubits "0" (JSString.toString2 index))
       "⟩").

End Panel.

(** ** Notions the statements use *)

(** The invariant of the data model: the state has [2^numQubits]
    amplitudes, and no more of them than an array holds. *)
Definition wellFormed (this : QuantumState) : Prop :=
  0 ≤ QuantumState.numQubits this
  ∧ Z.of_nat (length (QuantumState.amplitudes this)) = 2 ^ QuantumState.numQubits this
  ∧ Z.of_nat (length (QuantumState.amplitudes this)) ≤ JS.maxArrayLength.

(** Every cell holds a [Complex]. *)
Definition typed (amps : list (option Complex)) : Prop :=
  ∃ l : list Complex, amps = Some <$> l.

(** A gate matrix has its four entries. *)
Definition gateMatrix (gate : list (list Complex)) : Prop :=
  ∀ b bit, (b = 0 ∨ b = 1) → (bit = 0 ∨ bit = 1) →
    is_Some (JS.idx gate b ≫= λ row, JS.idx row bit).

Definition twoByTwo (m : list (list Complex)) : Prop :=
  ∃ a b c d, m = [[a; b]; [c; d]].

(** A basis index of an [n]-qubit state. *)
Definition index (n s : Z) : Prop := 0 ≤ s < 2 ^ n.

Definition czero : Complex := Complex.mk 0 0.
Definition cone : Complex := Complex.mk 1 0.

(** The amplitudes of the basis state [k]. *)
Definition basisValues (size k : nat) : list Complex :=
  (λ i : nat, if (i =? k)%nat then cone else czero) <$> seq 0 size.
Definition basisAmplitudes (size k : nat) : list (option Complex) :=
  Some <$> basisValues size k.

(** The density matrix of the amplitudes [l]. *)
Definition outer (l : list Complex) : list (list Complex) :=
  (λ ai, (λ aj, Complex.multiply ai (Complex.conjugate aj)) <$> l) <$> l.

(** The reduced density matrices of a basis state, and the matrix the
    partial trace starts from. *)
Definition zeroMatrix : list (list Complex) := [[czero; czero]; [czero; czero]].
Definition bitMatrix (b : bool) : list (list Complex) :=
  if b then [[czero; czero]; [czero; cone]] else [[cone; czero]; [czero; czero]].
Definition traced (red : list (list Complex)) : Prop :=
  red = zeroMatrix ∨ red = bitMatrix false ∨ red = bitMatrix true.

(** An array of [size] cells that hold 0 or 1. *)
Definition bitCells (size : nat) (w : list (option Complex)) : Prop :=
  length w = size ∧
  ∀ i, (i < size)%nat → w !! i = Some (Some czero) ∨ w !! i = Some (Some cone).

(** The loop of [applyCNOT] seen as a pass of swaps: at [s], when [ctrl s],
    the cells [s] and [p s] change places. *)
Definition swapStep {A : Type} (ctrl : nat → bool) (p : nat → nat)
    (a : list (option A)) (s : nat) : list (option A) :=
  if ctrl s then <[p s := mjoin (a !! s)]> (<[s := mjoin (a !! p s)]> a) else a.


Definition controlled (pc : Z) (s : nat) : bool := Z.testbit (Z.of_nat s) pc.
Definition partner (pt : Z) (s : nat) : nat :=
  Z.to_nat (Z.lxor (Z.of_nat s) (2 ^ pt)).

(** The heap after a loop that fills the array at [new], against the
    result [r] of the same loop on the cells. *)
Definition fills (new : Obj.loc) (h : Obj.heap)
    (r : result (list (option Complex))) (out : result unit * Obj.heap) : Prop :=
  match r with
  | Ok w' => out = (Ok tt, <[new := w']> h)
  | Throw e => ∃ w', out = (Throw e, <[new := w']> h)
  end.

(** In [h] the array under construction holds [w] and the receiver's
    array holds [amps]. *)
Definition filling (new src : Obj.loc) (amps : list (option Complex))
    (h : Obj.heap) (w : list (option Complex)) : Prop :=
  h !! new = Some w ∧ h !! src = Some amps.

Definition filled (amps w : list (option Complex)) : Prop :=
  length w = length amps ∧ typed w.

Definition stepLe (a b : Circuit.QuantumGate) : Prop :=
  Circuit.step a ≤ Circuit.step b.



(** The two indices of the pair of [t] at the bit [pos]: [t] with the bit
    cleared, and with the bit set. *)
Definition cleared (pos : Z) (t : nat) : nat :=
  Z.to_nat (Z.ldiff (Z.of_nat t) (2 ^ pos)).
Definition raised (pos : Z) (t : nat) : nat :=
  Z.to_nat (Z.lor (Z.of_nat t) (2 ^ pos)).

(** The entry of a gate matrix and the amplitude of a state, where they
    are there. *)
Definition entry (gate : list (list Complex)) (b c : Z) : Complex :=
  default czero (JS.idx gate b ≫= λ row, JS.idx row c).
Definition amplitude (amps : list (option Complex)) (i : nat) : Complex :=
  default czero (mjoin (amps !! i)).

(** What the cell [t] of [newAmplitudes] holds once [applyGate] has
    visited the states below [k]: the terms are added in the order of the
    visits, the one of the lower index of the pair first. *)
Definition partialCell (gate : list (list Complex)) (pos : Z)
    (amps : list (option Complex)) (k t : nat) : Complex :=
  let b := Z.b2z (Z.testbit (Z.of_nat t) pos) in
  let c0 :=
    if (cleared pos t <? k)%nat
    then Complex.add czero
           (Complex.multiply (amplitude amps (cleared pos t)) (entry gate b 0))
    else czero in
  if (raised pos t <? k)%nat
  then Complex.add c0
         (Complex.multiply (amplitude amps (raised pos t)) (entry gate b 1))
  else c0.

(** The cell [t] of the product of the gate with the state. *)
Definition gateCell (gate : list (list Complex)) (pos : Z)
    (amps : list (option Complex)) (t : nat) : Complex :=
  let b := Z.b2z (Z.testbit (Z.of_nat t) pos) in
  Complex.add
    (Complex.add czero
       (Complex.multiply (amplitude amps (cleared pos t)) (entry gate b 0)))
    (Complex.multiply (amplitude amps (raised pos t)) (entry gate b 1)).

(** A pass of swaps in which [ctrl] holds at one index of every pair: where
    the cell [i] comes from after the first [k] visits. *)
Definition swappedOnce (ctrl : nat → bool) (p : nat → nat) (k i : nat) : nat :=
  if ((if ctrl i then i else p i) <? k)%nat then p i else i.

(** A state of the data model of [n] qubits whose cells all hold a
    [Complex]. *)
Definition sound (n : Z) (state : QuantumState) : Prop :=
  wellFormed state ∧ typed (QuantumState.amplitudes state)
  ∧ QuantumState.numQubits state = n.

(** A run that set nothing, and a run that set everything. *)
Definition nothingSet (u : Page.Updates) : Prop :=
  u = Page.mkUpdates None None None true.
Definition allSet (n : Z) (u : Page.Updates) : Prop :=
  ∃ state vectors matrices,
    u = Page.mkUpdates (Some state) (Some vectors) (Some matrices) false
    ∧ sound n state
    ∧ length vectors = Z.to_nat n
    ∧ length matrices = Z.to_nat n
    ∧ Forall twoByTwo matrices.

(** The cell of a placement in the grid. *)
Definition cell (g : Circuit.QuantumGate) : Z * Z :=
  (Circuit.qubit g, Circuit.step g).

(** The circuits the handlers of the page build: from the empty circuit
    (the start, [handleCircuitClear] and a change of the number of
    qubits), by [handleGateSelect] on the selected qubit (0, or the index
    of the Bloch sphere that was clicked) and by [handleGateRemove]. *)
Inductive built : list Circuit.QuantumGate → Prop :=
  | built_empty : built []
  | built_select gates selectedQubit gateInfo :
      built gates → 0 ≤ selectedQubit →
      built (Page.handleGateSelect gates selectedQubit gateInfo)
  | built_remove gates gateId newGates :
      built gates → Page.handleGateRemove gates gateId = Some newGates →
      built newGates.

(** A string without the separator of the identifiers. *)
Fixpoint dashFree (s : string) : Prop :=
  match s with
  | EmptyString => True
  | String c s' => c ≠ "-"%char ∧ dashFree s'
  end.

(** ** Concrete inputs *)

(** Two-qubit states with real amplitudes. *)
Definition ket (a0 a1 a2 a3 : float) : QuantumState :=
  QuantumState.mk [Some (Complex.mk a0 0); Some (Complex.mk a1 0);
                   Some (Complex.mk a2 0); Some (Complex.mk a3 0)] 2.
Definition ket00 : QuantumState := ket 1 0 0 0.
Definition ket10 : QuantumState := ket 0 0 1 0.
Definition ket11 : QuantumState := ket 0 0 0 1.

Definition threeCells : list (option Complex) :=
  [Some (Complex.mk 1 0); Some (Complex.mk 0 0); Some (Complex.mk 0 0)].

(** A heap with one instance, whose array holds [|10⟩]. *)
Definition heap0 : Obj.heap := [QuantumState.amplitudes ket10].
Definition this0 : Obj.t := Obj.mk 0 2.

Definition circuit0 : list Circuit.QuantumGate :=
  [Circuit.mkGate "H" 0 0; Circuit.mkGate "Pₓ" 1 0; Circuit.mkGate "S" 0 1].

(** * Proofs *)

Import QuantumState Circuit.

(** ** The operators of JavaScript at work *)

Example shl_wraps : JS.shl 1 31 = - 2 ^ 31 ∧ JS.shl 1 32 = 1 ∧ JS.shl 3 31 = - 2 ^ 31.
Proof. repeat split. Qed.

Example sar_keeps_sign : JS.sar (-8) 1 = -4 ∧ JS.sar (2 ^ 31) 0 = - 2 ^ 31.
Proof. repeat split. Qed.

Example shift_count_negative : JS.shiftCount (-1) = 31 ∧ JS.sar 5 (-1) = 0.
Proof. repeat split. Qed.

Example bnot_mask : JS.band 7 (JS.bnot (JS.shl 1 1)) = 5 ∧ JS.bxor 5 (JS.shl 1 1) = 7.
Proof. repeat split. Qed.

Example set_past_the_end :
  JS.set [Some 1; Some 2] 4 (Some 5) = [Some 1; Some 2; None; None; Some 5]
  ∧ JS.set [Some 1; Some 2] (-1) (Some 5) = [Some 1; Some 2]
  ∧ JS.get [Some 1; Some 2] 2 = None.
Proof. repeat split. Qed.

(** ** The bit operators on basis indices

    An array has fewer than [2^32] cells, so a well-formed state has at
    most 31 qubits: its indices and the masks [1 << pos] are below [2^31],
    where the 32-bit operators agree with the ones of [Z]. *)

Lemma ToInt32_id x : - 2 ^ 31 ≤ x < 2 ^ 31 → JS.ToInt32 x = x.
Proof. intros Hx. unfold JS.ToInt32. rewrite Z.mod_small; lia. Qed.

Lemma shiftCount_id k : 0 ≤ k < 32 → JS.shiftCount k = k.
Proof. intros Hk. unfold JS.shiftCount. rewrite Z.mod_small; lia. Qed.

Lemma pow2_lt_31 k : 0 ≤ k ≤ 30 → 0 < 2 ^ k < 2 ^ 31.
Proof.
  intros Hk. split; [apply Z.pow_pos_nonneg; lia|].
  apply Z.pow_lt_mono_r; lia.
Qed.

Lemma shl_1 k : 0 ≤ k ≤ 30 → JS.shl 1 k = 2 ^ k.
Proof.
  intros Hk. unfold JS.shl. pose proof (pow2_lt_31 k Hk).
  rewrite (ToInt32_id 1), shiftCount_id, Z.shiftl_1_l by lia.
  apply ToInt32_id; lia.
Qed.

Lemma shl_0 k : JS.shl 0 k = 0.
Proof. unfold JS.shl. rewrite (ToInt32_id 0), Z.shiftl_0_l by lia. reflexivity. Qed.

(** Bits of a basis index. *)
Section index_bits.
Variables n pos : Z.
Hypothesis Hn : 0 ≤ n ≤ 31.
Hypothesis Hpos : 0 ≤ pos < n.

Lemma index_int32 s : index n s → - 2 ^ 31 ≤ s < 2 ^ 31.
Proof.
  intros [??]. assert (2 ^ n ≤ 2 ^ 31) by (apply Z.pow_le_mono_r; lia). lia.
Qed.

Lemma index_bits s : 0 ≤ s → index n s ↔ ∀ l, n ≤ l → Z.testbit s l = false.
Proof.
  intros Hs. unfold index.
  rewrite <- (Z.bounded_iff_bits_nonneg n s) by lia. lia.
Qed.

Lemma bitAt s : index n s → JS.band (JS.sar s pos) 1 = Z.b2z (Z.testbit s pos).
Proof.
  intros Hs. pose proof (index_int32 s Hs) as H32. unfold JS.band, JS.sar.
  rewrite (ToInt32_id s), shiftCount_id, (ToInt32_id 1) by lia.
  assert (0 ≤ Z.shiftr s pos ≤ s) as Hsh.
  { rewrite Z.shiftr_div_pow2 by lia. destruct Hs. split.
    - apply Z.div_pos; [lia|apply Z.pow_pos_nonneg; lia].
    - apply Z.div_le_upper_bound; [apply Z.pow_pos_nonneg; lia|].
      assert (1 ≤ 2 ^ pos) by (pose proof (Z.pow_pos_nonneg 2 pos); lia). nia. }
  rewrite ToInt32_id by lia.
  change 1 with (Z.ones 1). rewrite Z.land_ones by lia.
  change (2 ^ 1) with 2. rewrite <- Z.bit0_mod, Z.shiftr_spec by lia.
  reflexivity.
Qed.

Lemma ldiff_index s : index n s → index n (Z.ldiff s (2 ^ pos)).
Proof.
  intros Hs. assert (0 ≤ Z.ldiff s (2 ^ pos)) as H0.
  { apply Z.ldiff_nonneg. unfold index in Hs. lia. }
  apply index_bits; [done|]. intros l Hl.
  rewrite Z.ldiff_spec. rewrite (proj1 (index_bits s ltac:(unfold index in Hs; lia)) Hs l Hl).
  reflexivity.
Qed.

Lemma otherBits s :
  index n s → JS.band s (JS.bnot (JS.shl 1 pos)) = Z.ldiff s (2 ^ pos).
Proof.
  intros Hs. pose proof (index_int32 s Hs) as H32.
  pose proof (pow2_lt_31 pos ltac:(lia)).
  unfold JS.band, JS.bnot. rewrite shl_1 by lia.
  rewrite (ToInt32_id s), (ToInt32_id (2 ^ pos)) by lia.
  rewrite ToInt32_id by (unfold Z.lnot; lia).
  symmetry. apply Z.ldiff_land.
Qed.

Lemma pow2_index : index n (2 ^ pos).
Proof.
  split; [apply Z.pow_nonneg; lia|apply Z.pow_lt_mono_r; lia].
Qed.

Lemma lor_index a b : index n a → index n b → index n (Z.lor a b).
Proof.
  intros Ha Hb. assert (0 ≤ Z.lor a b) by (apply Z.lor_nonneg; unfold index in *; lia).
  apply index_bits; [done|]. intros l Hl. rewrite Z.lor_spec.
  rewrite (proj1 (index_bits a ltac:(unfold index in Ha; lia)) Ha l Hl).
  rewrite (proj1 (index_bits b ltac:(unfold index in Hb; lia)) Hb l Hl).
  reflexivity.
Qed.

Lemma lxor_index a b : index n a → index n b → index n (Z.lxor a b).
Proof.
  intros Ha Hb. assert (0 ≤ Z.lxor a b) by (apply Z.lxor_nonneg; unfold index in *; lia).
  apply index_bits; [done|]. intros l Hl. rewrite Z.lxor_spec.
  rewrite (proj1 (index_bits a ltac:(unfold index in Ha; lia)) Ha l Hl).
  rewrite (proj1 (index_bits b ltac:(unfold index in Hb; lia)) Hb l Hl).
  reflexivity.
Qed.

Lemma newState0 o : index n o → JS.bor o (JS.shl 0 pos) = o.
Proof.
  intros Ho. pose proof (index_int32 o Ho).
  unfold JS.bor. rewrite shl_0, (ToInt32_id o), (ToInt32_id 0) by lia.
  apply Z.lor_0_r.
Qed.

Lemma newState1 o : index n o → JS.bor o (JS.shl 1 pos) = Z.lor o (2 ^ pos).
Proof.
  intros Ho. pose proof (index_int32 o Ho). pose proof (pow2_lt_31 pos ltac:(lia)).
  unfold JS.bor. rewrite shl_1, (ToInt32_id o), (ToInt32_id (2 ^ pos)) by lia.
  reflexivity.
Qed.

Lemma flipped s : index n s → JS.bxor s (JS.shl 1 pos) = Z.lxor s (2 ^ pos).
Proof.
  intros Hs. pose proof (index_int32 s Hs). pose proof (pow2_lt_31 pos ltac:(lia)).
  unfold JS.bxor. rewrite shl_1, (ToInt32_id s), (ToInt32_id (2 ^ pos)) by lia.
  reflexivity.
Qed.

Lemma flip_testbit s k :
  0 ≤ k → Z.testbit (Z.lxor s (2 ^ pos)) k
          = xorb (Z.testbit s k) (bool_decide (k = pos)).
Proof.
  intros Hk. rewrite Z.lxor_spec, Z.pow2_bits_eqb by lia.
  f_equal. case_bool_decide; [apply Z.eqb_eq|apply Z.eqb_neq]; lia.
Qed.


Lemma flip_flip s : Z.lxor (Z.lxor s (2 ^ pos)) (2 ^ pos) = s.
Proof. rewrite Z.lxor_assoc, Z.lxor_nilpotent. apply Z.lxor_0_r. Qed.

End index_bits.

(** ** Array accesses inside the array *)

Lemma idx_of_nat {A} (a : list A) (i : nat) : JS.idx a (Z.of_nat i) = a !! i.
Proof.
  unfold JS.idx. destruct (Z.ltb_spec (Z.of_nat i) 0); [lia|]. by rewrite Nat2Z.id.
Qed.

Lemma idx_nonneg {A} (a : list A) (i : Z) : 0 ≤ i → JS.idx a i = a !! Z.to_nat i.
Proof. intros Hi. unfold JS.idx. destruct (Z.ltb_spec i 0); [lia|done]. Qed.

Lemma get_nonneg {A} (a : list (option A)) (i : Z) :
  0 ≤ i → JS.get a i = mjoin (a !! Z.to_nat i).
Proof. intros Hi. unfold JS.get. by rewrite idx_nonneg. Qed.

Lemma set_inside {A} (a : list (option A)) (i : Z) v :
  0 ≤ i → (Z.to_nat i < length a)%nat → JS.set a i v = <[Z.to_nat i := v]> a.
Proof.
  intros Hi Hlt. unfold JS.set. destruct (Z.ltb_spec i 0); [lia|].
  destruct (Nat.ltb_spec (Z.to_nat i) (length a)); [done|lia].
Qed.

(** ** A pass that swaps every pair at both of its indices

    [p] pairs the indices and [ctrl] is the same on both indices of a
    pair.  After [k] visits the cell [i] holds what [visited k i] held at
    the start: the cells of a pair are exchanged while exactly one of its
    indices has been visited, and are back in place afterwards. *)

(** Splits the goal on every comparison [a <? b] it shows. *)
Ltac ltb_cases :=
  repeat match goal with
         | |- context [(?a <? ?b)%nat] => destruct (Nat.ltb_spec a b)
         end.

Section swap_pass.
Context {A : Type}.
Variable len : nat.
Variable ctrl : nat → bool.
Variable p : nat → nat.
Hypothesis p_lt : ∀ s, (s < len)%nat → (p s < len)%nat.
Hypothesis p_ne : ∀ s, (s < len)%nat → p s ≠ s.
Hypothesis p_inv : ∀ s, (s < len)%nat → p (p s) = s.
Hypothesis p_ctrl : ∀ s, (s < len)%nat → ctrl (p s) = ctrl s.

Lemma some_mjoin (a : list (option A)) i :
  (i < length a)%nat → Some (mjoin (a !! i)) = a !! i.
Proof.
  intros Hi. destruct (lookup_lt_is_Some_2 a i Hi) as [c ->]. reflexivity.
Qed.


End swap_pass.

(** ** The loop of [applyCNOT] is such a pass *)

Section cnot.
Context {A : Type}.
Variables n pc pt : Z.
Hypothesis Hn : 0 ≤ n ≤ 31.
Hypothesis Hpc : 0 ≤ pc < n.
Hypothesis Hpt : 0 ≤ pt < n.
Hypothesis Hne : pc ≠ pt.

Lemma partner_index (s : nat) :
  index n (Z.of_nat s) → index n (Z.lxor (Z.of_nat s) (2 ^ pt)).
Proof. intros Hs. apply lxor_index; [lia|done|]. apply pow2_index; lia. Qed.

Lemma swapStep_length (a : list (option A)) s :
  length (swapStep (controlled pc) (partner pt) a s) = length a.
Proof. unfold swapStep. destruct (controlled pc s); by rewrite ?length_insert. Qed.

Lemma cnotStep_swap (a : list (option A)) (s : nat) :
  Z.of_nat (length a) = 2 ^ n → (s < length a)%nat →
  cnotStep pc pt a s = swapStep (controlled pc) (partner pt) a s.
Proof.
  intros Hlen Hs. assert (index n (Z.of_nat s)) as Hi by (unfold index; lia).
  pose proof (partner_index s Hi) as [Hp0 Hp1].
  unfold cnotStep, swapStep, controlled, partner.
  rewrite (bitAt n pc Hn Hpc _ Hi), (flipped n pt Hn Hpt _ Hi).
  destruct (Z.testbit (Z.of_nat s) pc); simpl; [|done].
  rewrite !get_nonneg, Nat2Z.id by lia.
  rewrite (set_inside a), Nat2Z.id by lia.
  rewrite set_inside by (rewrite ?length_insert; lia).
  reflexivity.
Qed.

Lemma cnotPass_swap (l : list nat) (a : list (option A)) :
  Z.of_nat (length a) = 2 ^ n → Forall (λ s, s < length a)%nat l →
  foldl (cnotStep pc pt) a l = foldl (swapStep (controlled pc) (partner pt)) a l.
Proof.
  revert a. induction l as [|s l IH]; intros a Hlen Hl; [done|].
  inversion_clear Hl as [|?? Hs Hl']. simpl.
  rewrite cnotStep_swap by done.
  apply IH; rewrite swapStep_length; done.
Qed.

End cnot.

(** ** Loops that may throw *)

Lemma foldlM_app {A S} (f : S → A → result S) s l1 l2 :
  foldlM f s (l1 ++ l2) = s' ← foldlM f s l1; foldlM f s' l2.
Proof.
  revert s. induction l1 as [|x l1 IH]; intros s; simpl; [done|].
  destruct (f s x); simpl; [apply IH|done].
Qed.

Lemma foldlM_fixed {A S} (f : S → A → result S) s l :
  Forall (λ x, f s x = Ok s) l → foldlM f s l = Ok s.
Proof.
  induction 1 as [|x l Hx _ IH]; simpl; [done|]. rewrite Hx. simpl. exact IH.
Qed.

Lemma mapM_defined {A B} (g : A → result B) (l : list A) (l' : list B) :
  Forall2 (λ a b, g a = Ok b) l l' → mapM g l = Ok l'.
Proof.
  induction 1 as [|a b l l' Hab _ IH]; simpl; [done|].
  rewrite Hab. simpl. rewrite IH. reflexivity.
Qed.

(** ** Basis states, their density matrices and Bloch vectors

    All numbers met here are 0 and 1: the binary64 operations on them are
    exact and are evaluated. *)

Lemma zeroAmplitudes_basis size : zeroAmplitudes size = basisAmplitudes size 0.
Proof.
  unfold zeroAmplitudes, basisAmplitudes, basisValues. rewrite <- list_fmap_compose.
  apply list_fmap_ext. intros _ i _. simpl. destruct (i =? 0)%nat; reflexivity.
Qed.

Lemma basisValues_length size k : length (basisValues size k) = size.
Proof. unfold basisValues. by rewrite length_fmap, length_seq. Qed.

Lemma basisAmplitudes_length size k : length (basisAmplitudes size k) = size.
Proof. unfold basisAmplitudes. by rewrite length_fmap, basisValues_length. Qed.

Lemma basisValues_lookup size k i :
  (i < size)%nat → basisValues size k !! i = Some (if (i =? k)%nat then cone else czero).
Proof.
  intros Hi. unfold basisValues. rewrite list_lookup_fmap, lookup_seq_lt by done.
  reflexivity.
Qed.

Lemma basisAmplitudes_lookup size k i :
  (i < size)%nat →
  basisAmplitudes size k !! i = Some (Some (if (i =? k)%nat then cone else czero)).
Proof.
  intros Hi. unfold basisAmplitudes. rewrite list_lookup_fmap, basisValues_lookup by done.
  reflexivity.
Qed.

Lemma getDensityMatrix_defined (l : list Complex) n :
  getDensityMatrix (mk (Some <$> l) n) = Ok (outer l).
Proof.
  unfold getDensityMatrix, outer. simpl.
  apply mapM_defined. apply Forall2_fmap.
  apply Forall_Forall2_diag, Forall_forall. intros ai _.
  apply mapM_defined. apply Forall2_fmap.
  apply Forall_Forall2_diag, Forall_forall. intros aj _. reflexivity.
Qed.

Lemma outer_basis_lookup size k i j :
  (i < size)%nat → (j < size)%nat →
  outer (basisValues size k) !! i ≫= (.!! j)
  = Some (if (i =? k)%nat && (j =? k)%nat then cone else czero).
Proof.
  intros Hi Hj. unfold outer.
  rewrite list_lookup_fmap, basisValues_lookup by done. simpl.
  rewrite list_lookup_fmap, basisValues_lookup by done. simpl.
  destruct (i =? k)%nat, (j =? k)%nat; reflexivity.
Qed.

Lemma idx2_of_nat {A} (m : list (list A)) (i j : nat) :
  JS.idx m (Z.of_nat i) ≫= (λ row, JS.idx row (Z.of_nat j)) = m !! i ≫= (.!! j).
Proof.
  rewrite idx_of_nat. destruct (m !! i) as [row|]; simpl; [|done]. apply idx_of_nat.
Qed.

Lemma seq_split (k size : nat) :
  (k < size)%nat → seq 0 size = seq 0 k ++ k :: seq (S k) (size - S k).
Proof.
  intros Hk. replace size with (k + S (size - S k))%nat at 1 by lia.
  rewrite seq_app. reflexivity.
Qed.

Section trace_basis.
Variables (n pos : Z) (size k : nat).
Hypothesis Hn : 0 ≤ n ≤ 31.
Hypothesis Hpos : 0 ≤ pos < n.
Hypothesis Hsize : Z.of_nat size = 2 ^ n.
Hypothesis Hk : (k < size)%nat.

Lemma traceStep_other red i j :
  traced red → (i < size)%nat → (j < size)%nat → ¬ (i = k ∧ j = k) →
  traceStep pos (outer (basisValues size k)) i red j = Ok red.
Proof.
  intros Hred Hi Hj Hij. unfold traceStep.
  rewrite !(bitAt n pos Hn Hpos) by (unfold index; lia).
  destruct (_ =? _); [|done].
  rewrite idx2_of_nat, outer_basis_lookup by done.
  assert ((i =? k)%nat && (j =? k)%nat = false) as ->.
  { apply andb_false_iff.
    destruct (Nat.eqb_spec i k), (Nat.eqb_spec j k); auto. tauto. }
  destruct (Z.testbit (Z.of_nat i) pos), (Z.testbit (Z.of_nat j) pos);
    destruct Hred as [->|[->| ->]]; reflexivity.
Qed.

Lemma traceStep_basis :
  traceStep pos (outer (basisValues size k)) k zeroMatrix k
  = Ok (bitMatrix (Z.testbit (Z.of_nat k) pos)).
Proof.
  unfold traceStep.
  rewrite !(bitAt n pos Hn Hpos) by (unfold index; lia).
  rewrite Z.eqb_refl.
  rewrite idx2_of_nat, outer_basis_lookup by done.
  rewrite Nat.eqb_refl.
  destruct (Z.testbit (Z.of_nat k) pos); reflexivity.
Qed.

Lemma trace_row_other red i :
  traced red → (i < size)%nat → i ≠ k →
  foldlM (traceStep pos (outer (basisValues size k)) i) red (seq 0 size) = Ok red.
Proof.
  intros Hred Hi Hik. apply foldlM_fixed, Forall_forall.
  intros j Hj%elem_of_seq. apply traceStep_other; [done|done|lia|tauto].
Qed.

Lemma trace_row_basis :
  foldlM (traceStep pos (outer (basisValues size k)) k) zeroMatrix (seq 0 size)
  = Ok (bitMatrix (Z.testbit (Z.of_nat k) pos)).
Proof.
  rewrite (seq_split k size Hk), foldlM_app.
  rewrite foldlM_fixed.
  2:{ apply Forall_forall. intros j Hj%elem_of_seq.
      apply traceStep_other; [by left|done|lia|lia]. }
  simpl. rewrite traceStep_basis. simpl.
  apply foldlM_fixed, Forall_forall. intros j Hj%elem_of_seq.
  apply traceStep_other; [|done|lia|lia].
  destruct (Z.testbit (Z.of_nat k) pos); [by right; right|by right; left].
Qed.

Lemma trace_basis :
  foldlM (λ red i, foldlM (traceStep pos (outer (basisValues size k)) i) red (seq 0 size))
    zeroMatrix (seq 0 size)
  = Ok (bitMatrix (Z.testbit (Z.of_nat k) pos)).
Proof.
  set (row := λ red i, foldlM _ red (seq 0 size)).
  rewrite (seq_split k size Hk), foldlM_app.
  rewrite foldlM_fixed.
  2:{ apply Forall_forall. intros i Hi%elem_of_seq.
      apply trace_row_other; [by left|lia|lia]. }
  simpl. assert (row zeroMatrix k = Ok (bitMatrix (Z.testbit (Z.of_nat k) pos))) as ->
    by apply trace_row_basis.
  simpl.
  apply foldlM_fixed, Forall_forall. intros i Hi%elem_of_seq.
  apply trace_row_other; [|lia|lia].
  destruct (Z.testbit (Z.of_nat k) pos); [by right; right|by right; left].
Qed.
End trace_basis.

Lemma getReducedDensityMatrix_basis n q size k :
  0 ≤ n ≤ 31 → 0 ≤ q < n → Z.of_nat size = 2 ^ n → (k < size)%nat →
  getReducedDensityMatrix (mk (basisAmplitudes size k) n) q
  = Ok (bitMatrix (Z.testbit (Z.of_nat k) (n - 1 - q))).
Proof.
  intros Hn Hq Hsize Hk. unfold getReducedDensityMatrix.
  cbn [numQubits amplitudes].
  destruct (Z.geb_spec q n); [lia|].
  rewrite basisAmplitudes_length.
  unfold basisAmplitudes. rewrite getDensityMatrix_defined.
  apply (trace_basis n); [done|lia|done|done].
Qed.

Lemma getBlochVector_basis n q size k :
  0 ≤ n ≤ 31 → 0 ≤ q < n → Z.of_nat size = 2 ^ n → (k < size)%nat →
  getBlochVector (mk (basisAmplitudes size k) n) q
  = Ok (mkBloch 0 0 (if Z.testbit (Z.of_nat k) (n - 1 - q) then -1 else 1)).
Proof.
  intros Hn Hq Hsize Hk. unfold getBlochVector.
  rewrite (getReducedDensityMatrix_basis n q size k) by done.
  destruct (Z.testbit (Z.of_nat k) (n - 1 - q)); reflexivity.
Qed.

(** ** [X] on the state [|00...0⟩] *)

Lemma bitCells_basis size k : bitCells size (basisAmplitudes size k).
Proof.
  split; [apply basisAmplitudes_length|]. intros i Hi.
  rewrite basisAmplitudes_lookup by done. destruct (i =? k)%nat; auto.
Qed.

Lemma insert_replicate_basis size k :
  <[k := Some cone]> (replicate size (Some czero)) = basisAmplitudes size k.
Proof.
  apply list_eq. intros i.
  destruct (decide (i < size)%nat) as [Hi|Hi].
  - rewrite basisAmplitudes_lookup by done.
    destruct (Nat.eqb_spec i k) as [->|Hne].
    + rewrite list_lookup_insert_eq; [done|by rewrite length_replicate].
    + rewrite list_lookup_insert_ne by done. by rewrite lookup_replicate_2.
  - rewrite !lookup_ge_None_2; [done|rewrite basisAmplitudes_length; lia|].
    rewrite length_insert, length_replicate. lia.
Qed.

(** One accumulation of [applyGate] whose cells are all there. *)
Lemma gateStep_eval amps gate pos (s : nat) w b g (ns : nat) c a :
  JS.idx gate b ≫= (λ row, JS.idx row (JS.band (JS.sar (Z.of_nat s) pos) 1)) = Some g →
  JS.bor (JS.band (Z.of_nat s) (JS.bnot (JS.shl 1 pos))) (JS.shl b pos) = Z.of_nat ns →
  w !! ns = Some (Some c) →
  amps !! s = Some (Some a) →
  gateStep amps gate pos s w b
  = Ok (<[ns := Some (Complex.add c (Complex.multiply a g))]> w).
Proof.
  intros Hg Hns Hc Ha. unfold gateStep. rewrite Hg, Hns. simpl.
  rewrite !get_nonneg, !Nat2Z.id, Hc, Ha by lia. simpl.
  rewrite set_inside, Nat2Z.id; [done|lia|].
  rewrite Nat2Z.id. by apply lookup_lt_is_Some_1.
Qed.

Section gate_X_zero.
Variables (n pos : Z) (size : nat).
Hypothesis Hn : 0 ≤ n ≤ 31.
Hypothesis Hpos : 0 ≤ pos < n.
Hypothesis Hsize : Z.of_nat size = 2 ^ n.

Lemma size_pos : (0 < size)%nat.
Proof. pose proof (Z.pow_pos_nonneg 2 n). lia. Qed.

Lemma newState_index (s : nat) b :
  (s < size)%nat → b = 0 ∨ b = 1 →
  ∃ ns : nat,
    JS.bor (JS.band (Z.of_nat s) (JS.bnot (JS.shl 1 pos))) (JS.shl b pos) = Z.of_nat ns
    ∧ (ns < size)%nat.
Proof.
  intros Hs Hb. assert (index n (Z.of_nat s)) as Hi by (unfold index; lia).
  rewrite (otherBits n pos Hn Hpos _ Hi).
  pose proof (ldiff_index n pos Hn _ Hi) as Ho.
  assert (index n (JS.bor (Z.ldiff (Z.of_nat s) (2 ^ pos)) (JS.shl b pos))) as [H0 H1].
  { destruct Hb as [->| ->].
    - by rewrite (newState0 n pos Hn _ Ho).
    - rewrite (newState1 n pos Hn Hpos _ Ho).
      apply lor_index; [lia|done|]. apply pow2_index; lia. }
  eexists (Z.to_nat _). split; [by rewrite Z2Nat.id|].
  apply Nat2Z.inj_lt. rewrite Z2Nat.id, Hsize; done.
Qed.

Lemma gateElement_X b bit :
  b = 0 ∨ b = 1 →
  ∃ g, JS.idx QuantumGates.X b ≫= (λ row, JS.idx row (Z.b2z bit)) = Some g
       ∧ (g = czero ∨ g = cone).
Proof.
  intros [->| ->]; destruct bit; simpl; eexists; split; try reflexivity; auto.
Qed.

(** A czero amplitude adds nothing to a cell that holds 0 or 1. *)
Lemma gateStep_rest w s b :
  bitCells size w → (0 < s < size)%nat → b = 0 ∨ b = 1 →
  gateStep (basisAmplitudes size 0) QuantumGates.X pos s w b = Ok w.
Proof.
  intros [Hlen Hw] Hs Hb.
  assert (index n (Z.of_nat s)) as Hi by (unfold index; lia).
  destruct (newState_index s b ltac:(lia) Hb) as (ns & Hns & Hlt).
  destruct (gateElement_X b (Z.testbit (Z.of_nat s) pos) Hb) as (g & Hg & Hg').
  rewrite <- (bitAt n pos Hn Hpos _ Hi) in Hg.
  assert (basisAmplitudes size 0 !! s = Some (Some czero)) as Ha.
  { rewrite basisAmplitudes_lookup by lia. destruct (Nat.eqb_spec s 0); [lia|done]. }
  destruct (Hw ns Hlt) as [Hc|Hc];
    rewrite (gateStep_eval _ _ _ _ _ _ _ _ _ _ Hg Hns Hc Ha); f_equal;
    apply list_insert_id; rewrite Hc; destruct Hg' as [->| ->]; reflexivity.
Qed.

Lemma gateStep_first0 :
  gateStep (basisAmplitudes size 0) QuantumGates.X pos 0 (replicate size (Some czero)) 0
  = Ok (replicate size (Some czero)).
Proof.
  pose proof size_pos as Hsz.
  assert (index n 0) as Hi by (unfold index; lia).
  rewrite (gateStep_eval _ _ _ _ _ _ czero 0%nat czero cone).
  - f_equal. apply list_insert_id. by rewrite lookup_replicate_2.
  - change (Z.of_nat 0) with 0. rewrite (bitAt n pos Hn Hpos _ Hi), Z.bits_0.
    reflexivity.
  - change (Z.of_nat 0) with 0.
    rewrite (otherBits n pos Hn Hpos _ Hi), Z.ldiff_0_l.
    apply (newState0 n pos Hn _ Hi).
  - by rewrite lookup_replicate_2.
  - by rewrite basisAmplitudes_lookup.
Qed.

Lemma gateStep_first1 :
  gateStep (basisAmplitudes size 0) QuantumGates.X pos 0 (replicate size (Some czero)) 1
  = Ok (basisAmplitudes size (Z.to_nat (2 ^ pos))).
Proof.
  pose proof size_pos as Hsz.
  assert (index n 0) as Hi by (unfold index; lia).
  assert (0 ≤ 2 ^ pos < 2 ^ n) as Hp by (apply pow2_index; lia).
  rewrite (gateStep_eval _ _ _ _ _ _ cone (Z.to_nat (2 ^ pos)) czero cone).
  - f_equal. apply insert_replicate_basis.
  - change (Z.of_nat 0) with 0. rewrite (bitAt n pos Hn Hpos _ Hi), Z.bits_0.
    reflexivity.
  - change (Z.of_nat 0) with 0.
    rewrite (otherBits n pos Hn Hpos _ Hi), Z.ldiff_0_l.
    rewrite (newState1 n pos Hn Hpos _ Hi), Z.lor_0_l, Z2Nat.id; lia.
  - rewrite lookup_replicate_2; [done|lia].
  - by rewrite basisAmplitudes_lookup.
Qed.

Lemma gatePass_X_zero :
  gatePass (basisAmplitudes size 0) QuantumGates.X pos
  = Ok (basisAmplitudes size (Z.to_nat (2 ^ pos))).
Proof.
  pose proof size_pos as Hsz.
  unfold gatePass. rewrite basisAmplitudes_length.
  rewrite (seq_split 0 size Hsz).
  change (seq 0 0 ++ 0%nat :: ?l) with (0%nat :: l).
  cbn [foldlM]. fold czero. rewrite gateStep_first0.
  cbn [mbind result_bind]. rewrite gateStep_first1. cbn [mbind result_bind].
  apply foldlM_fixed, Forall_forall. intros s Hs%elem_of_seq.
  pose proof (bitCells_basis size (Z.to_nat (2 ^ pos))) as Hw.
  cbn [foldlM]. rewrite gateStep_rest by (auto; lia). cbn [mbind result_bind].
  rewrite gateStep_rest by (auto; lia). reflexivity.
Qed.
End gate_X_zero.

Lemma applyGate_X_zero n q size :
  0 ≤ n ≤ 31 → 0 ≤ q < n → Z.of_nat size = 2 ^ n →
  applyGate (mk (basisAmplitudes size 0) n) QuantumGates.X q
  = Ok (mk (basisAmplitudes size (Z.to_nat (2 ^ (n - 1 - q)))) n).
Proof.
  intros Hn Hq Hsize. unfold applyGate. cbn [amplitudes numQubits].
  rewrite (gatePass_X_zero n) by (done || lia). reflexivity.
Qed.

(** ** The methods on the heap

    Each loop writes to the array it was given and to no other; run on the
    heap it gives what the same loop gives on the cells. *)

Lemma alter_at {A} (f : A → A) (h : list A) (l : nat) (w : A) :
  h !! l = Some w → alter f l h = <[l := f w]> h.
Proof.
  revert l. induction h as [|x h IH]; intros [|l] Hl; simplify_eq/=; [done|].
  f_equal. by apply IH.
Qed.

Lemma setCell_run l i v h w :
  h !! l = Some w → Obj.setCell l i v h = (Ok tt, <[l := JS.set w i v]> h).
Proof. intros Hl. unfold Obj.setCell. by rewrite (alter_at _ _ _ _ Hl). Qed.

Lemma getCell_run l i h w :
  h !! l = Some w → Obj.getCell l i h = (Ok (JS.get w i), h).
Proof.
  intros Hl. unfold Obj.getCell, Obj.cells, mbind, Obj.M_bind. by rewrite Hl.
Qed.

Lemma lookup_insert_here {A} (h : list A) l w w' :
  h !! l = Some w → <[l := w']> h !! l = Some w'.
Proof. intros Hl. apply list_lookup_insert_eq. by apply lookup_lt_is_Some_1. Qed.

Lemma cnotBody_run pc pt l h w state :
  h !! l = Some w →
  Obj.cnotBody pc pt l state h = (Ok tt, <[l := cnotStep pc pt w state]> h).
Proof.
  intros Hl. unfold Obj.cnotBody, cnotStep.
  destruct (_ =? 1).
  - unfold mbind, Obj.M_bind.
    rewrite !(getCell_run _ _ _ _ Hl), (setCell_run _ _ _ _ _ Hl).
    rewrite (setCell_run _ _ _ _ _ (lookup_insert_here _ _ _ _ Hl)).
    by rewrite list_insert_insert_eq.
  - unfold mret, Obj.M_ret. by rewrite list_insert_id.
Qed.

Lemma forM_cnotBody pc pt l xs h w :
  h !! l = Some w →
  Obj.forM xs (Obj.cnotBody pc pt l) h
  = (Ok tt, <[l := foldl (cnotStep pc pt) w xs]> h).
Proof.
  revert h w. induction xs as [|x xs IH]; intros h w Hl; simpl.
  - unfold mret, Obj.M_ret. by rewrite list_insert_id.
  - unfold mbind, Obj.M_bind. rewrite (cnotBody_run _ _ _ _ _ _ Hl).
    rewrite (IH _ _ (lookup_insert_here _ _ _ _ Hl)).
    by rewrite list_insert_insert_eq.
Qed.

Lemma lookup_snoc_here {A} (h : list A) (w : A) : (h ++ [w]) !! length h = Some w.
Proof. rewrite lookup_app_r by lia. by rewrite Nat.sub_diag. Qed.

Lemma insert_snoc_here {A} (h : list A) (w w' : A) :
  <[length h := w']> (h ++ [w]) = h ++ [w'].
Proof. rewrite insert_app_r_alt by lia. by rewrite Nat.sub_diag. Qed.

Lemma constructor_run n l h w :
  h !! l = Some w →
  Obj.constructor n (Some l) h = (Ok (Obj.mk (length h) n), h ++ [w]).
Proof.
  intros Hl. unfold Obj.constructor, mbind, Obj.M_bind, Obj.cells. rewrite Hl.
  reflexivity.
Qed.

Lemma applyCNOT_run this c t h a :
  h !! Obj.amplitudes this = Some a →
  let v := cnotPass a (Obj.numQubits this - 1 - c) (Obj.numQubits this - 1 - t) in
  Obj.applyCNOT this c t h
  = (Ok (Obj.mk (S (length h)) (Obj.numQubits this)), h ++ [v; v]).
Proof.
  intros Ha v. unfold Obj.applyCNOT.
  unfold mbind at 1, Obj.M_bind at 1. unfold Obj.cells at 1. rewrite Ha.
  unfold mbind at 1, Obj.M_bind at 1. unfold Obj.alloc at 1.
  assert ((h ++ [a]) !! Obj.amplitudes this = Some a) as Ha'
    by (by apply lookup_app_l_Some).
  unfold mbind at 1, Obj.M_bind at 1. unfold Obj.arrayLength.
  unfold mbind at 1, Obj.M_bind at 1. unfold Obj.cells at 1. rewrite Ha'.
  unfold mret, Obj.M_ret.
  unfold mbind at 1, Obj.M_bind at 1.
  rewrite (forM_cnotBody _ _ _ _ _ _ (lookup_snoc_here h a)).
  rewrite insert_snoc_here. fold (cnotPass a (Obj.numQubits this - 1 - c)
    (Obj.numQubits this - 1 - t)). fold v.
  rewrite (constructor_run _ _ _ _ (lookup_snoc_here h v)).
  rewrite length_app, Nat.add_1_r, <- app_assoc. reflexivity.
Qed.

Section filling_loops.
Variables (new src : Obj.loc) (amps : list (option Complex)).
Hypothesis Hne : src ≠ new.

Lemma filling_insert h w w' :
  filling new src amps h w → filling new src amps (<[new := w']> h) w'.
Proof.
  intros [Hn Hs]. split; [by eapply lookup_insert_here|].
  by rewrite list_lookup_insert_ne.
Qed.

Lemma forM_fills {A} (step : list (option Complex) → A → result (list (option Complex)))
    (body : A → Obj.M unit) (xs : list A) :
  (∀ x h w, filling new src amps h w → fills new h (step w x) (body x h)) →
  ∀ h w, filling new src amps h w → fills new h (foldlM step w xs) (Obj.forM xs body h).
Proof.
  intros Hbody. induction xs as [|x xs IH]; intros h w Hf; simpl.
  - unfold mret, Obj.M_ret. destruct Hf as [Hn _]. by rewrite list_insert_id.
  - specialize (Hbody x h w Hf). unfold mbind at 2, Obj.M_bind.
    destruct (step w x) as [w1|e]; simpl in *.
    + rewrite Hbody. specialize (IH _ _ (filling_insert _ _ w1 Hf)).
      destruct (foldlM step w1 xs) as [w2|e]; simpl in *.
      * rewrite IH. by rewrite list_insert_insert_eq.
      * destruct IH as [w' ->]. exists w'. by rewrite list_insert_insert_eq.
    + destruct Hbody as [w' ->]. by exists w'.
Qed.

Lemma gateBody_fills this gate pos state b h w :
  Obj.amplitudes this = src → filling new src amps h w →
  fills new h (gateStep amps gate pos state w b)
    (Obj.gateBody this gate pos new state b h).
Proof.
  intros Hthis [Hn Hs]. unfold Obj.gateBody, gateStep. rewrite Hthis.
  unfold mbind at 5, Obj.M_bind, Obj.lift.
  destruct (JS.defined (JS.idx gate b ≫= _)) as [g|e]; simpl.
  2:{ exists w. by rewrite list_insert_id. }
  unfold mbind at 3, Obj.M_bind. unfold mbind at 3, Obj.M_bind.
  rewrite (getCell_run _ _ _ _ Hn).
  destruct (JS.defined (JS.get w _)) as [c|e]; simpl.
  2:{ exists w. by rewrite list_insert_id. }
  unfold mbind at 2, Obj.M_bind. unfold mbind at 2, Obj.M_bind.
  rewrite (getCell_run _ _ _ _ Hs).
  destruct (JS.defined (JS.get amps _)) as [a|e]; simpl.
  2:{ exists w. by rewrite list_insert_id. }
  by rewrite (setCell_run _ _ _ _ _ Hn).
Qed.
End filling_loops.

Lemma applyGate_run this gate q h a :
  h !! Obj.amplitudes this = Some a →
  match gatePass a gate (Obj.numQubits this - 1 - q) with
  | Ok v => Obj.applyGate this gate q h
            = (Ok (Obj.mk (S (length h)) (Obj.numQubits this)), h ++ [v; v])
  | Throw e => ∃ w, Obj.applyGate this gate q h = (Throw e, h ++ [w])
  end.
Proof.
  intros Ha.
  set (pos := Obj.numQubits this - 1 - q).
  set (w0 := replicate (length a) (Some (Complex.mk 0 0))).
  assert (Obj.amplitudes this < length h)%nat as Hlt by (by eapply lookup_lt_Some).
  assert (Obj.amplitudes this ≠ length h) as Hne by lia.
  assert (filling (length h) (Obj.amplitudes this) a (h ++ [w0]) w0) as Hf.
  { split; [apply lookup_snoc_here|by apply lookup_app_l_Some]. }
  assert (fills (length h) (h ++ [w0]) (gatePass a gate pos)
            (Obj.forM (seq 0 (length a))
               (λ state, Obj.forM [0; 1] (Obj.gateBody this gate pos (length h) state))
               (h ++ [w0]))) as Hloop.
  { unfold gatePass. fold w0.
    apply (forM_fills (length h) (Obj.amplitudes this) a Hne); [|done].
    intros state h' w' Hf'.
    apply (forM_fills (length h) (Obj.amplitudes this) a Hne); [|done].
    intros b h'' w'' Hf''. by apply (gateBody_fills _ (Obj.amplitudes this)). }
  assert (∀ out, Obj.forM (seq 0 (length a))
               (λ state, Obj.forM [0; 1] (Obj.gateBody this gate pos (length h) state))
               (h ++ [w0]) = out →
             Obj.applyGate this gate q h
             = match out with
               | (Ok _, h') => Obj.constructor (Obj.numQubits this) (Some (length h)) h'
               | (Throw e, h') => (Throw e, h')
               end) as Hrun.
  { intros out <-. unfold Obj.applyGate.
    unfold mbind at 1, Obj.M_bind at 1. unfold Obj.arrayLength.
    unfold mbind at 1, Obj.M_bind at 1. unfold Obj.cells at 1. rewrite Ha.
    unfold mret, Obj.M_ret.
    unfold mbind at 1, Obj.M_bind at 1. unfold Obj.alloc at 1.
    unfold mbind at 1, Obj.M_bind at 1. reflexivity. }
  destruct (gatePass a gate pos) as [v|e]; unfold fills in Hloop.
  - rewrite (Hrun _ Hloop), insert_snoc_here.
    rewrite (constructor_run _ _ _ _ (lookup_snoc_here h v)).
    rewrite length_app, Nat.add_1_r, <- app_assoc. reflexivity.
  - destruct Hloop as [w' Hloop]. exists w'.
    by rewrite (Hrun _ Hloop), insert_snoc_here.
Qed.

(** ** When the methods return *)

Lemma foldlM_invariant {A S} (P : S → Prop) (f : S → A → result S) l s :
  P s → (∀ s x, P s → x ∈ l → ∃ s', f s x = Ok s' ∧ P s') →
  ∃ s', foldlM f s l = Ok s' ∧ P s'.
Proof.
  revert s. induction l as [|x l IH]; intros s Hs Hf; simpl; [by exists s|].
  destruct (Hf s x Hs ltac:(left)) as (s1 & -> & Hs1). simpl.
  apply IH; [done|]. intros s2 y Hs2 Hy. apply Hf; [done|by right].
Qed.

Lemma band_1_bit x : JS.band x 1 = 0 ∨ JS.band x 1 = 1.
Proof.
  unfold JS.band. rewrite (ToInt32_id 1) by lia.
  assert (Z.land (JS.ToInt32 x) 1 = JS.ToInt32 x `mod` 2) as ->
    by apply (Z.land_ones _ 1 ltac:(lia)).
  pose proof (Z.mod_pos_bound (JS.ToInt32 x) 2). lia.
Qed.

Lemma typed_lookup amps i :
  typed amps → (i < length amps)%nat → ∃ c, amps !! i = Some (Some c).
Proof.
  intros [l ->] Hi. rewrite length_fmap in Hi.
  destruct (lookup_lt_is_Some_2 l i Hi) as [c Hc]. exists c.
  by rewrite list_lookup_fmap, Hc.
Qed.

Lemma typed_insert amps i c : typed amps → typed (<[i := Some c]> amps).
Proof. intros [l ->]. exists (<[i := c]> l). by rewrite list_fmap_insert. Qed.

Lemma outer_lookup l i j :
  (i < length l)%nat → (j < length l)%nat → ∃ r, outer l !! i ≫= (.!! j) = Some r.
Proof.
  intros Hi Hj. unfold outer.
  destruct (lookup_lt_is_Some_2 l i Hi) as [a Ha].
  destruct (lookup_lt_is_Some_2 l j Hj) as [b Hb].
  rewrite list_lookup_fmap, Ha. simpl. rewrite list_lookup_fmap, Hb. simpl. eauto.
Qed.

Lemma traceStep_total pos l i red j :
  twoByTwo red → (i < length l)%nat → (j < length l)%nat →
  ∃ red', traceStep pos (outer l) i red j = Ok red' ∧ twoByTwo red'.
Proof.
  intros (a & b & c & d & ->) Hi Hj. unfold traceStep.
  destruct (_ =? _); [|by eexists; split; [|by exists a, b, c, d]].
  rewrite idx2_of_nat. destruct (outer_lookup l i j Hi Hj) as [r ->].
  destruct (band_1_bit (JS.sar (Z.of_nat i) pos)) as [-> | ->],
    (band_1_bit (JS.sar (Z.of_nat j) pos)) as [-> | ->];
    simpl; eexists; (split; [reflexivity|]); unfold twoByTwo; eauto.
Qed.

Lemma getReducedDensityMatrix_total this q :
  typed (amplitudes this) → q < numQubits this →
  ∃ m, getReducedDensityMatrix this q = Ok m ∧ twoByTwo m.
Proof.
  destruct this as [amps n]. simpl. intros [l ->] Hq.
  unfold getReducedDensityMatrix. cbn [numQubits amplitudes].
  destruct (Z.geb_spec q n); [lia|].
  rewrite getDensityMatrix_defined. cbn [mbind result_bind].
  rewrite length_fmap.
  apply foldlM_invariant; [unfold twoByTwo; eauto|].
  intros red i Hred Hi%elem_of_seq.
  apply foldlM_invariant; [done|].
  intros red' j Hred' Hj%elem_of_seq.
  apply traceStep_total; [done|lia|lia].
Qed.

Lemma getReducedDensityMatrix_invalid this q :
  numQubits this ≤ q →
  getReducedDensityMatrix this q = Throw (Error_InvalidQubitIndex q).
Proof.
  intros Hq. unfold getReducedDensityMatrix.
  destruct (Z.geb_spec q (numQubits this)); [done|lia].
Qed.

Section gatePass_total.
Variables (n pos : Z) (amps : list (option Complex)) (gate : list (list Complex)).
Hypothesis Hn : 0 ≤ n ≤ 31.
Hypothesis Hpos : 0 ≤ pos < n.
Hypothesis Hlen : Z.of_nat (length amps) = 2 ^ n.
Hypothesis Hamps : typed amps.
Hypothesis Hgate : gateMatrix gate.

Lemma gateStep_total w s b :
  filled amps w → (s < length amps)%nat → b = 0 ∨ b = 1 →
  ∃ w', gateStep amps gate pos s w b = Ok w' ∧ filled amps w'.
Proof.
  intros [Hw Hty] Hs Hb.
  destruct (newState_index n pos (length amps) Hn Hpos Hlen s b Hs Hb)
    as (ns & Hns & Hlt).
  destruct (Hgate b (JS.band (JS.sar (Z.of_nat s) pos) 1) Hb (band_1_bit _))
    as [g Hg].
  destruct (typed_lookup w ns Hty ltac:(lia)) as [c Hc].
  destruct (typed_lookup amps s Hamps Hs) as [a Ha].
  rewrite (gateStep_eval _ _ _ _ _ _ _ _ _ _ Hg Hns Hc Ha).
  eexists; split; [done|]. split; [by rewrite length_insert|by apply typed_insert].
Qed.

Lemma gatePass_total : ∃ v, gatePass amps gate pos = Ok v ∧ filled amps v.
Proof.
  unfold gatePass. apply foldlM_invariant.
  - split; [by rewrite length_replicate|].
    exists (replicate (length amps) (Complex.mk 0 0)). by rewrite fmap_replicate.
  - intros w s Hw Hs%elem_of_seq. apply foldlM_invariant; [done|].
    intros w' b Hw' Hb. apply gateStep_total; [done|lia|].
    apply elem_of_cons in Hb as [->|Hb]; [by left|].
    apply list_elem_of_singleton in Hb as ->. by right.
Qed.
End gatePass_total.

(** ** The sort and the loops of the executor *)

Lemma insertByStep_perm g l : insertByStep g l ≡ₚ g :: l.
Proof.
  induction l as [|g' l IH]; simpl; [done|].
  destruct (step g <=? step g'); [done|].
  rewrite IH. apply Permutation_swap.
Qed.

Lemma sortByStep_perm gates : sortByStep gates ≡ₚ gates.
Proof.
  induction gates as [|g gates IH]; simpl; [done|].
  rewrite insertByStep_perm. by rewrite IH.
Qed.

Lemma insertByStep_sorted g l :
  StronglySorted stepLe l → StronglySorted stepLe (insertByStep g l).
Proof.
  induction 1 as [|g' l Hl IH Hall]; simpl.
  - repeat constructor.
  - destruct (Z.leb_spec (step g) (step g')) as [Hle|Hlt].
    + constructor; [by constructor|]. constructor; [done|].
      eapply Forall_impl; [exact Hall|]. unfold stepLe. intros; simpl in *; lia.
    + constructor; [done|].
      rewrite insertByStep_perm. constructor; [unfold stepLe; lia|done].
  Qed.

Lemma sortByStep_sorted gates : StronglySorted stepLe (sortByStep gates).
Proof.
  induction gates as [|g gates IH]; simpl; [constructor|].
  by apply insertByStep_sorted.
Qed.

(** The sort is stable: gates of cone step keep their order. *)
Lemma insertByStep_stable k g l :
  filter (λ g', step g' = k) (insertByStep g l)
  = filter (λ g', step g' = k) (g :: l).
Proof.
  induction l as [|g' l IH]; simpl; [done|].
  destruct (Z.leb_spec (step g) (step g')) as [Hle|Hlt]; [done|].
  rewrite !filter_cons in *. rewrite IH.
  repeat case_decide; try done; lia.
Qed.

Lemma sortByStep_stable k gates :
  filter (λ g, step g = k) (sortByStep gates) = filter (λ g, step g = k) gates.
Proof.
  induction gates as [|g gates IH]; simpl; [done|].
  rewrite insertByStep_stable, !filter_cons, IH. done.
Qed.

Lemma filter_none {A} (P : A → Prop) `{!∀ x, Decision (P x)} (l : list A) :
  Forall (λ x, ¬ P x) l → filter P l = [].
Proof.
  induction 1 as [|x l Hx _ IH]; [done|]. by rewrite filter_cons_False.
Qed.

Lemma steppedLoop_filter cutoff gs state :
  StronglySorted stepLe gs →
  steppedLoop cutoff state gs
  = foldlM applySymbol state (filter (λ g, step g < cutoff) gs).
Proof.
  intros Hs. revert state. induction Hs as [|g gs Hgs IH Hall]; intros state; simpl; [done|].
  rewrite filter_cons. destruct (Z.geb_spec (step g) cutoff) as [Hge|Hlt].
  - rewrite decide_False by lia.
    rewrite filter_none; [done|].
    eapply Forall_impl; [exact Hall|]. unfold stepLe. intros; simpl in *; lia.
  - rewrite decide_True by lia. simpl.
    destruct (applySymbol state g); simpl; [apply IH|done].
Qed.



(** * The properties of the specification

    ** [applyCNOT] (C1, C10) *)

Lemma wellFormed_qubits this : wellFormed this → 0 ≤ numQubits this ≤ 31.
Proof.
  intros (H0 & Hlen & Hmax). split; [done|].
  destruct (Z.le_gt_cases (numQubits this) 31) as [|Hgt]; [done|].
  assert (2 ^ 32 ≤ 2 ^ numQubits this) by (apply Z.pow_le_mono_r; lia).
  unfold JS.maxArrayLength in Hmax. lia.
Qed.

(** C1.  The specification asks that [applyCNOT(0, 1)] turn [|10⟩] into
    [|11⟩] and leave [|00⟩] alone.  The loop visits both indices of a pair
    and swaps at each visit: on [|10⟩] the result is [|10⟩] again, not
    [|11⟩]; on [|00⟩] nothing changes. *)
Theorem applyCNOT_on_ket10 :
  applyCNOT ket10 0 1 = Ok ket10
  ∧ applyCNOT ket10 0 1 ≠ Ok ket11
  ∧ applyCNOT ket00 0 1 = Ok ket00.
Proof.
  split; [reflexivity|]. split; [|reflexivity].
  intros Heq. vm_compute in Heq. discriminate Heq.
Qed.


(** On an array that has not [2^numQubits] cells the pass reaches past the
    end: with three cells and two qubits, the visit of index 2 exchanges
    the cell 2 with the missing cell 3. *)
Remark applyCNOT_three_cells :
  applyCNOT (mk threeCells 2) 0 1
  = Ok (mk [Some (Complex.mk 1 0); Some (Complex.mk 0 0); None;
            Some (Complex.mk 0 0)] 2).
Proof. reflexivity. Qed.


(** ** The Bloch vector of a flipped qubit (C7) *)

(** C7.  On the state [|00...0⟩] that the constructor makes for [n]
    qubits, [applyGate(X, q)] followed by [getBlochVector(q)] gives
    [(0, 0, -1)], and [getBlochVector(q)] alone gives [(0, 0, 1)], both
    exactly, for every qubit [q] of the state. *)
Theorem blochVector_after_X (n q : Z) (s0 : QuantumState) :
  constructor n None = Ok s0 → 0 ≤ q < n →
  (s1 ← applyGate s0 QuantumGates.X q; getBlochVector s1 q) = Ok (mkBloch 0 0 (-1))
  ∧ getBlochVector s0 q = Ok (mkBloch 0 0 1).
Proof.
  intros Hs0 Hq. unfold constructor in Hs0.
  destruct (Z.leb_spec 0 n), (Z.leb_spec n 31); simplify_eq/=.
  assert (0 < 2 ^ n) as Hpow by (apply Z.pow_pos_nonneg; lia).
  set (size := Z.to_nat (2 ^ n)).
  assert (Z.of_nat size = 2 ^ n) as Hsize by (unfold size; lia).
  assert (0 ≤ 2 ^ (n - 1 - q) < 2 ^ n) as Hp by (apply pow2_index; lia).
  rewrite zeroAmplitudes_basis. split.
  - rewrite (applyGate_X_zero n q size) by (done || lia). cbn [mbind result_bind].
    rewrite (getBlochVector_basis n q size) by (done || lia).
    rewrite Z2Nat.id, Z.pow2_bits_true by lia. reflexivity.
  - rewrite (getBlochVector_basis n q size) by (done || lia).
    change (Z.of_nat 0) with 0. rewrite Z.bits_0. reflexivity.
Qed.

(** C7 on two qubits, at qubit 1. *)
Lemma blochVector_after_X_witness :
  (s1 ← applyGate ket00 QuantumGates.X 1; getBlochVector s1 1) = Ok (mkBloch 0 0 (-1))
  ∧ getBlochVector ket00 1 = Ok (mkBloch 0 0 1).
Proof.
  apply (blochVector_after_X 2 1 ket00); [reflexivity|lia].
Defined.

(** ** The constructor (C2) *)

(** C2, the sentence of the specification fails: with three amplitudes
    for one qubit (three is not [2^1]) the constructor throws nothing and
    returns a state with these three amplitudes. *)
Lemma constructor_accepts_three_amplitudes :
  Z.of_nat (length threeCells) ≠ 2 ^ 1
  ∧ ¬ (∃ e, constructor 1 (Some threeCells) = Throw e)
  ∧ constructor 1 (Some threeCells) = Ok (mk threeCells 1).
Proof.
  split; [simpl; lia|]. split; [|reflexivity]. intros [e He]. discriminate He.
Qed.

(** C2, as amended.  Given an initial amplitude sequence, the constructor
    never fails, whatever the length of the sequence: it returns a state
    whose amplitudes are the given ones and whose [numQubits] is the given
    number. *)
Theorem constructor_keeps_initialState (n : Z) (init : list (option Complex)) :
  ∃ this, constructor n (Some init) = Ok this
          ∧ getAmplitudes this = init ∧ getNumQubits this = n.
Proof. eexists. split; [reflexivity|]. split; reflexivity. Qed.

(** ** The guard of [getReducedDensityMatrix] (C3) *)

(** C3.  The specification asks for a failure on every index outside
    [[0, numQubits)].  The guard of [getReducedDensityMatrix] tests
    [qubitIndex >= numQubits] only: on the index [-1] of a two-qubit state
    nothing is thrown, and a matrix and a Bloch vector come back. *)
Theorem getReducedDensityMatrix_negative_index :
  getReducedDensityMatrix ket00 (-1)
  = Ok [[Complex.mk 1 0; Complex.mk 0 0]; [Complex.mk 0 0; Complex.mk 0 0]]
  ∧ getBlochVector ket00 (-1) = Ok (mkBloch 0 0 1).
Proof. split; reflexivity. Qed.

(** On a state whose cells all hold a [Complex], the guard is the only
    failure: the call throws exactly when [qubitIndex >= numQubits]. *)
Lemma getReducedDensityMatrix_fails_iff this q :
  typed (amplitudes this) →
  (∃ e, getReducedDensityMatrix this q = Throw e) ↔ numQubits this ≤ q.
Proof.
  intros Hty. split.
  - intros [e He]. destruct (Z.le_gt_cases (numQubits this) q) as [|Hlt]; [done|].
    destruct (getReducedDensityMatrix_total this q Hty ltac:(lia)) as (m & Hm & _).
    congruence.
  - intros Hq. eexists. by apply getReducedDensityMatrix_invalid.
Qed.

(** ** The depth of a circuit (C4) *)







(** ** The runs of the executor (C8) *)


Lemma filter_all {A} (P : A → Prop) `{!∀ x, Decision (P x)} (l : list A) :
  Forall P l → filter P l = l.
Proof.
  induction 1 as [|x l Hx _ IH]; [done|]. by rewrite filter_cons_True, IH.
Qed.

(** With a cutoff above every step the stepped run is the full run. *)
Lemma updateSteppedState_full numQubits cutoff gates :
  Forall (λ g, step g < cutoff) gates →
  updateSteppedState numQubits cutoff gates = handleCircuitRun numQubits gates.
Proof.
  intros Hall. unfold updateSteppedState, handleCircuitRun.
  destruct (constructor numQubits None) as [state|e]; [|done]. simpl.
  rewrite steppedLoop_filter by apply sortByStep_sorted.
  rewrite filter_all; [done|]. by rewrite sortByStep_perm.
Qed.


(** ** The receiver of a transform (C9) *)

Lemma observed_live this h a :
  h !! Obj.amplitudes this = Some a → Obj.observed this h = Some a.
Proof.
  intros Ha. unfold Obj.observed, Obj.getAmplitudes, mbind, Obj.M_bind, Obj.cells.
  rewrite Ha. unfold Obj.alloc. apply lookup_snoc_here.
Qed.

(** C9.  [applyGate] and [applyCNOT] write to arrays they allocate
    themselves: after the call the heap is the old heap followed by new
    arrays, [getAmplitudes()] on the receiver shows what it showed before,
    and the instance that is returned holds one of the new arrays.
    [applyCNOT] always returns; [applyGate] returns when the receiver is
    well formed and typed, the gate is a matrix and the qubit is one of the
    receiver's. *)
Theorem transforms_leave_receiver (h : Obj.heap) (this : Obj.t)
    (a : list (option Complex)) (gate : list (list Complex))
    (qubitIndex controlQubit targetQubit : Z) :
  h !! Obj.amplitudes this = Some a →
  (∃ r extra,
      Obj.applyGate this gate qubitIndex h = (r, h ++ extra)
      ∧ Obj.observed this (h ++ extra) = Obj.observed this h
      ∧ (∀ new, r = Ok new →
           (length h ≤ Obj.amplitudes new < length (h ++ extra))%nat
           ∧ Obj.amplitudes new ≠ Obj.amplitudes this)
      ∧ (wellFormed (mk a (Obj.numQubits this)) → typed a → gateMatrix gate →
         0 ≤ qubitIndex < Obj.numQubits this → ∃ new, r = Ok new))
  ∧ (∃ new extra,
      Obj.applyCNOT this controlQubit targetQubit h = (Ok new, h ++ extra)
      ∧ Obj.observed this (h ++ extra) = Obj.observed this h
      ∧ (length h ≤ Obj.amplitudes new < length (h ++ extra))%nat
      ∧ Obj.amplitudes new ≠ Obj.amplitudes this).
Proof.
  intros Ha.
  assert (Obj.amplitudes this < length h)%nat as Hlt by (by eapply lookup_lt_Some).
  assert (∀ extra, Obj.observed this (h ++ extra) = Obj.observed this h) as Hobs.
  { intros extra. rewrite !(observed_live _ _ a); [done..|by apply lookup_app_l_Some]. }
  split.
  - pose proof (applyGate_run this gate qubitIndex h a Ha) as Hrun.
    destruct (gatePass a gate _) as [v|e] eqn:Hpass.
    + eexists _, _. split; [exact Hrun|]. split; [apply Hobs|]. split.
      * intros new [= <-]. simpl. rewrite length_app. simpl. lia.
      * eauto.
    + destruct Hrun as [w Hrun]. eexists _, _. split; [exact Hrun|].
      split; [apply Hobs|]. split; [by intros new [=]|].
      intros Hwf Hty Hgate Hq.
      pose proof (wellFormed_qubits _ Hwf) as Hn. destruct Hwf as (_ & Hlen & _).
      simpl in *.
      destruct (gatePass_total (Obj.numQubits this)
                  (Obj.numQubits this - 1 - qubitIndex) a gate Hn ltac:(lia)
                  Hlen Hty Hgate) as (v & Hv & _).
      congruence.
  - eexists _, _. split; [by apply applyCNOT_run|]. split; [apply Hobs|].
    simpl. rewrite length_app. simpl. lia.
Qed.

(** C9 on a heap with one instance. *)
Lemma transforms_leave_receiver_witness :
  Obj.observed this0 (snd (Obj.applyGate this0 QuantumGates.H 0 heap0))
  = Some (amplitudes ket10).
Proof.
  destruct (transforms_leave_receiver heap0 this0 (amplitudes ket10)
              QuantumGates.H 0 0 1 eq_refl) as [(r & extra & Hrun & Hobs & _) _].
  rewrite Hrun. cbn [snd]. rewrite Hobs. reflexivity.
Defined.

(** ** Rounding (C5, C6)

    The amplitudes are binary64 numbers and the entries of [H] are rounded:
    two applications of [H] to a fresh qubit give the amplitude
    [1 - 2^-52], not 1, and a thousand applications give
    [1 - 707 * 2^-53]. *)
Remark hadamard_twice_rounds :
  (s0 ← constructor 1 None;
   s1 ← applyGate s0 QuantumGates.H 0;
   applyGate s1 QuantumGates.H 0)
  = Ok (mk [Some (Complex.mk 0x1.ffffffffffffep-1 0); Some (Complex.mk 0 0)] 1).
Proof. reflexivity. Qed.

Remark hadamard_thousand_times :
  Nat.iter 1000 (λ r, s ← r; applyGate s QuantumGates.H 0) (constructor 1 None)
  = Ok (mk [Some (Complex.mk 0x1.ffffffffffd3dp-1 0); Some (Complex.mk 0 0)] 1).
Proof. vm_compute. reflexivity. Qed.

(** * More of the code

    The rest of the engine, and the page around it. *)

(** ** The fresh state *)

Lemma zeroAmplitudes_length size : length (zeroAmplitudes size) = size.
Proof. by rewrite zeroAmplitudes_basis, basisAmplitudes_length. Qed.

Lemma constructor_range n :
  constructor n None
  = if decide (0 ≤ n ≤ 31)
    then Ok (mk (zeroAmplitudes (Z.to_nat (2 ^ n))) n) else Throw RangeError.
Proof.
  unfold constructor.
  destruct (Z.leb_spec 0 n), (Z.leb_spec n 31); simpl; case_decide; done || lia.
Qed.


(** ** [applyGate] on the states of the data model *)

(** X2.  [applyGate] keeps the data model.  On a state with [2^numQubits]
    cells that all hold a [Complex], with a gate that has its four entries
    and a qubit of the state, the call returns, and the state it returns
    has the same number of qubits, [2^numQubits] cells, and a [Complex] in
    every cell. *)
Theorem applyGate_keeps_wellFormed (this : QuantumState)
    (gate : list (list Complex)) (qubitIndex : Z) :
  wellFormed this → typed (amplitudes this) → gateMatrix gate →
  0 ≤ qubitIndex < numQubits this →
  ∃ new, applyGate this gate qubitIndex = Ok new
         ∧ numQubits new = numQubits this
         ∧ wellFormed new ∧ typed (amplitudes new).
Proof.
  intros Hwf Hty Hgate Hq. pose proof (wellFormed_qubits this Hwf) as Hn.
  destruct Hwf as (H0 & Hlen & Hmax).
  destruct (gatePass_total (numQubits this) (numQubits this - 1 - qubitIndex)
              (amplitudes this) gate Hn ltac:(lia) Hlen Hty Hgate)
    as (v & Hv & Hvlen & Hvty).
  unfold applyGate. rewrite Hv. simpl. eexists. split; [done|]. simpl.
  split; [done|]. split; [|done].
  unfold wellFormed. simpl. rewrite Hvlen. done.
Qed.

Lemma gateMatrix_H : gateMatrix QuantumGates.H.
Proof. intros b bit [->| ->] [->| ->]; by eexists. Qed.

Lemma wellFormed_ket a0 a1 a2 a3 : wellFormed (ket a0 a1 a2 a3).
Proof. unfold wellFormed, JS.maxArrayLength. simpl. lia. Qed.

Lemma typed_ket a0 a1 a2 a3 : typed (amplitudes (ket a0 a1 a2 a3)).
Proof.
  exists [Complex.mk a0 0; Complex.mk a1 0; Complex.mk a2 0; Complex.mk a3 0].
  reflexivity.
Qed.

Lemma applyGate_keeps_wellFormed_witness :
  ∃ new, applyGate ket00 QuantumGates.H 0 = Ok new
         ∧ numQubits new = numQubits ket00
         ∧ wellFormed new ∧ typed (amplitudes new).
Proof.
  apply (applyGate_keeps_wellFormed ket00 QuantumGates.H 0
           (wellFormed_ket _ _ _ _) (typed_ket _ _ _ _) gateMatrix_H).
  simpl. lia.
Defined.

(** ** Qubit numbers outside the state *)

Lemma shiftCount_add_32 k : JS.shiftCount (k + 32) = JS.shiftCount k.
Proof.
  unfold JS.shiftCount. replace (k + 32) with (k + 1 * 32) by lia.
  apply Z_mod_plus_full.
Qed.

Lemma sar_add_32 x k : JS.sar x (k + 32) = JS.sar x k.
Proof. unfold JS.sar. by rewrite shiftCount_add_32. Qed.

Lemma shl_add_32 x k : JS.shl x (k + 32) = JS.shl x k.
Proof. unfold JS.shl. by rewrite shiftCount_add_32. Qed.

Lemma sar_mod_32 x k : JS.sar x (k `mod` 32) = JS.sar x k.
Proof. unfold JS.sar, JS.shiftCount. by rewrite Z.mod_mod. Qed.

Lemma shl_mod_32 x k : JS.shl x (k `mod` 32) = JS.shl x k.
Proof. unfold JS.shl, JS.shiftCount. by rewrite Z.mod_mod. Qed.

Lemma foldlM_ext {A S} (f g : S → A → result S) s l :
  (∀ s x, f s x = g s x) → foldlM f s l = foldlM g s l.
Proof.
  intros Hfg. revert s. induction l as [|x l IH]; intros s; simpl; [done|].
  rewrite Hfg. destruct (g s x); simpl; [apply IH|done].
Qed.


Lemma gateStep_mod_32 amps gate pos state w b :
  gateStep amps gate (pos `mod` 32) state w b = gateStep amps gate pos state w b.
Proof. unfold gateStep. by rewrite !sar_mod_32, !shl_mod_32. Qed.

Lemma gatePass_mod_32 amps gate pos :
  gatePass amps gate (pos `mod` 32) = gatePass amps gate pos.
Proof.
  unfold gatePass. apply foldlM_ext. intros w s. apply foldlM_ext. intros w' b.
  apply gateStep_mod_32.
Qed.





Lemma ToInt32_range x : - 2 ^ 31 ≤ JS.ToInt32 x < 2 ^ 31.
Proof. unfold JS.ToInt32. pose proof (Z.mod_pos_bound (x + 2 ^ 31) (2 ^ 32)). lia. Qed.

(** The mask [1 << p] of a position outside the state is no index of it. *)
Lemma shl_1_outside n p :
  0 ≤ n → n ≤ p ≤ 31 → JS.shl 1 p < 0 ∨ 2 ^ n ≤ JS.shl 1 p.
Proof.
  intros Hn Hp. destruct (decide (p = 31)) as [->|Hne].
  - left. by vm_compute.
  - right. rewrite shl_1 by lia. apply Z.pow_le_mono_r; lia.
Qed.

Lemma get_outside {A} (w : list (option A)) i :
  i < 0 ∨ Z.of_nat (length w) ≤ i → JS.get w i = None.
Proof.
  intros Hi. unfold JS.get, JS.idx. destruct (Z.ltb_spec i 0); [done|].
  rewrite lookup_ge_None_2; [done|lia].
Qed.

Section outside.
Variables (n p : Z) (amps : list (option Complex)) (gate : list (list Complex)).
Hypothesis Hn : 0 ≤ n.
Hypothesis Hp : n ≤ p ≤ 31.
Hypothesis Hlen : Z.of_nat (length amps) = 2 ^ n.
Hypothesis Hty : typed amps.
Hypothesis Hgate : gateMatrix gate.

Lemma sar_0 : JS.sar (Z.of_nat 0) p = 0.
Proof.
  unfold JS.sar. change (Z.of_nat 0) with 0. rewrite (ToInt32_id 0) by lia.
  apply Z.shiftr_0_l.
Qed.

Lemma otherBits_0 : JS.band (Z.of_nat 0) (JS.bnot (JS.shl 1 p)) = 0.
Proof.
  unfold JS.band. change (Z.of_nat 0) with 0. rewrite (ToInt32_id 0) by lia.
  apply Z.land_0_l.
Qed.

(** At index 0 the visit for the new bit 0 stays at the cell 0. *)
Lemma gateStep_outside_0 w c :
  w !! 0%nat = Some (Some c) →
  ∃ w', gateStep amps gate p 0 w 0 = Ok w' ∧ length w' = length w.
Proof.
  intros Hc.
  assert (0 < length amps)%nat as Hpos
    by (pose proof (Z.pow_pos_nonneg 2 n); lia).
  destruct (typed_lookup amps 0 Hty Hpos) as [a Ha].
  destruct (Hgate 0 0 ltac:(by left) ltac:(by left)) as [g0 Hg0].
  eexists. split.
  - apply (gateStep_eval _ _ _ _ _ _ g0 0%nat c a); [|..|done|done].
    + rewrite sar_0. exact Hg0.
    + rewrite otherBits_0, shl_0. reflexivity.
  - by rewrite length_insert.
Qed.

(** The visit for the new bit 1 reads a cell that is not there. *)
Lemma gateStep_outside_1 w :
  length w = length amps → gateStep amps gate p 0 w 1 = Throw TypeError.
Proof.
  intros Hw. destruct (Hgate 1 0 ltac:(by right) ltac:(by left)) as [g1 Hg1].
  unfold gateStep. rewrite sar_0, otherBits_0.
  change (JS.band 0 1) with 0. rewrite Hg1. cbn [JS.defined mbind result_bind].
  assert (JS.bor 0 (JS.shl 1 p) = JS.shl 1 p) as ->.
  { unfold JS.bor. rewrite (ToInt32_id 0) by lia. rewrite Z.lor_0_l.
    apply ToInt32_id. unfold JS.shl. apply ToInt32_range. }
  rewrite (get_outside w); [done|]. rewrite Hw, Hlen. apply shl_1_outside; lia.
Qed.

Lemma gatePass_outside : gatePass amps gate p = Throw TypeError.
Proof.
  assert (0 < length amps)%nat as Hpos
    by (pose proof (Z.pow_pos_nonneg 2 n); lia).
  unfold gatePass. rewrite (seq_split 0 (length amps) Hpos).
  change (seq 0 0 ++ 0%nat :: ?l) with (0%nat :: l). cbn [foldlM].
  destruct (gateStep_outside_0 (replicate (length amps) (Some (Complex.mk 0 0)))
              (Complex.mk 0 0)) as (w' & -> & Hw').
  { by rewrite lookup_replicate_2. }
  cbn [mbind result_bind]. rewrite gateStep_outside_1; [done|].
  by rewrite Hw', length_replicate.
Qed.
End outside.



(** ** The observables: when they fail, and what they give on a basis state *)

(** X5.  [getBlochVector] fails on the guard of [getReducedDensityMatrix] and
    nowhere else.  On a state whose cells all hold a [Complex] the call
    returns a vector when [qubitIndex < numQubits] (a negative index
    included) and throws [Invalid qubit index: qubitIndex] otherwise. *)
Theorem getBlochVector_guard (this : QuantumState) (qubitIndex : Z) :
  typed (amplitudes this) →
  (qubitIndex < numQubits this → ∃ v, getBlochVector this qubitIndex = Ok v)
  ∧ (numQubits this ≤ qubitIndex →
     getBlochVector this qubitIndex = Throw (Error_InvalidQubitIndex qubitIndex)
     ∧ getReducedDensityMatrix this qubitIndex
       = Throw (Error_InvalidQubitIndex qubitIndex)).
Proof.
  intros Hty. split.
  - intros Hq.
    destruct (getReducedDensityMatrix_total this qubitIndex Hty Hq)
      as (m & Hm & (a & b & c & d & ->)).
    unfold getBlochVector. rewrite Hm. simpl. eauto.
  - intros Hq. unfold getBlochVector.
    by rewrite (getReducedDensityMatrix_invalid this qubitIndex Hq).
Qed.

Lemma getBlochVector_guard_witness :
  (∃ v, getBlochVector ket10 1 = Ok v)
  ∧ getBlochVector ket10 2 = Throw (Error_InvalidQubitIndex 2).
Proof.
  destruct (getBlochVector_guard ket10 1 (typed_ket _ _ _ _)) as [Hin _].
  destruct (getBlochVector_guard ket10 2 (typed_ket _ _ _ _)) as [_ Hout].
  split; [apply Hin; simpl; lia|apply Hout; simpl; lia].
Defined.

(** X6.  Qubit 0 is the most significant bit of a basis index.  For the basis
    state [|k⟩] of [n] qubits, the reduced density matrix of the qubit [q]
    is [|b⟩⟨b|] and its Bloch vector is [(0, 0, 1)] or [(0, 0, -1)], where
    [b] is the bit [n - 1 - q] of [k]; the values are exact. *)
Theorem basis_state_observables (n q : Z) (k : nat) :
  0 ≤ n ≤ 31 → 0 ≤ q < n → Z.of_nat k < 2 ^ n →
  let this := mk (basisAmplitudes (Z.to_nat (2 ^ n)) k) n in
  let b := Z.testbit (Z.of_nat k) (n - 1 - q) in
  wellFormed this
  ∧ getReducedDensityMatrix this q = Ok (bitMatrix b)
  ∧ getBlochVector this q = Ok (mkBloch 0 0 (if b then -1 else 1)).
Proof.
  intros Hn Hq Hk this b.
  assert (0 < 2 ^ n) as Hpos by (apply Z.pow_pos_nonneg; lia).
  assert (2 ^ n ≤ 2 ^ 31) as Hle by (apply Z.pow_le_mono_r; lia).
  assert (Z.of_nat (Z.to_nat (2 ^ n)) = 2 ^ n) as Hsize by lia.
  split; [|split].
  - unfold wellFormed, this. cbn [numQubits amplitudes].
    rewrite basisAmplitudes_length, Hsize. unfold JS.maxArrayLength. lia.
  - apply getReducedDensityMatrix_basis; (done || lia).
  - apply getBlochVector_basis; (done || lia).
Qed.

Lemma basis_state_observables_witness :
  getReducedDensityMatrix (mk (basisAmplitudes 8 5) 3) 1 = Ok (bitMatrix false)
  ∧ getBlochVector (mk (basisAmplitudes 8 5) 3) 1 = Ok (mkBloch 0 0 1).
Proof.
  apply (basis_state_observables 3 1 5); [lia|lia|reflexivity].
Defined.

(** ** [applyGate] as a product

    The two indices of a pair differ by [2^pos]. *)
Section pairs.
Variable pos : Z.
Hypothesis Hpos : 0 ≤ pos.

Lemma land_pow2 t : Z.land t (2 ^ pos) = if Z.testbit t pos then 2 ^ pos else 0.
Proof.
  apply Z.bits_inj'. intros i Hi. rewrite Z.land_spec, Z.pow2_bits_eqb by lia.
  destruct (Z.eqb_spec pos i) as [<-|Hne].
  - destruct (Z.testbit t pos); [by rewrite Z.pow2_bits_true|by rewrite Z.bits_0].
  - rewrite andb_false_r. destruct (Z.testbit t pos); [|by rewrite Z.bits_0].
    rewrite Z.pow2_bits_false; [done|lia].
Qed.

Lemma lor_pow2 t : Z.lor t (2 ^ pos) = t + 2 ^ pos - Z.land t (2 ^ pos).
Proof. pose proof (Z.add_lor_land t (2 ^ pos)). lia. Qed.

Lemma ldiff_pow2 t : Z.ldiff t (2 ^ pos) = t - Z.land t (2 ^ pos).
Proof.
  pose proof (Z.add_lor_land (Z.ldiff t (2 ^ pos)) (Z.land t (2 ^ pos))) as H.
  rewrite Z.lor_ldiff_and in H.
  assert (Z.land (Z.ldiff t (2 ^ pos)) (Z.land t (2 ^ pos)) = 0) as H0.
  { apply Z.bits_inj'. intros i Hi.
    rewrite !Z.land_spec, Z.ldiff_spec, Z.bits_0.
    destruct (Z.testbit t i), (Z.testbit (2 ^ pos) i); done. }
  lia.
Qed.

Lemma lxor_pow2 t : Z.lxor t (2 ^ pos) = t + 2 ^ pos - 2 * Z.land t (2 ^ pos).
Proof.
  pose proof (Z.sub_2lor_lxor t (2 ^ pos)). pose proof (lor_pow2 t). lia.
Qed.

(** An index is one of the two of its pair. *)
Lemma pair_cases (t : nat) :
  (Z.testbit (Z.of_nat t) pos = false ∧ cleared pos t = t
   ∧ Z.of_nat (raised pos t) = Z.of_nat t + 2 ^ pos)
  ∨ (Z.testbit (Z.of_nat t) pos = true ∧ raised pos t = t
     ∧ Z.of_nat (cleared pos t) = Z.of_nat t - 2 ^ pos).
Proof.
  unfold cleared, raised. rewrite lor_pow2, ldiff_pow2, land_pow2.
  pose proof (Z.pow_pos_nonneg 2 pos ltac:(lia) Hpos) as Hm.
  pose proof (Z.ldiff_nonneg (Z.of_nat t) (2 ^ pos)) as Hd.
  rewrite ldiff_pow2, land_pow2 in Hd.
  destruct (Z.testbit (Z.of_nat t) pos); [right|left]; repeat split; lia.
Qed.

Lemma cleared_bit (t : nat) : Z.testbit (Z.of_nat (cleared pos t)) pos = false.
Proof.
  unfold cleared. rewrite Z2Nat.id by (apply Z.ldiff_nonneg; lia).
  by rewrite Z.ldiff_spec, Z.pow2_bits_true, andb_false_r.
Qed.

Lemma raised_bit (t : nat) : Z.testbit (Z.of_nat (raised pos t)) pos = true.
Proof.
  unfold raised. rewrite Z2Nat.id by (apply Z.lor_nonneg; lia).
  by rewrite Z.lor_spec, Z.pow2_bits_true, orb_true_r.
Qed.

Lemma partner_cases (t : nat) :
  (Z.testbit (Z.of_nat t) pos = false ∧ partner pos t = raised pos t)
  ∨ (Z.testbit (Z.of_nat t) pos = true ∧ partner pos t = cleared pos t).
Proof.
  unfold partner, cleared, raised. rewrite lxor_pow2, lor_pow2, ldiff_pow2, land_pow2.
  destruct (Z.testbit (Z.of_nat t) pos); [right|left]; split; (done || f_equal; lia).
Qed.
End pairs.

Section gate_product.
Variables (n pos : Z) (amps : list (option Complex)) (gate : list (list Complex)).
Hypothesis Hn : 0 ≤ n ≤ 31.
Hypothesis Hpos : 0 ≤ pos < n.
Hypothesis Hlen : Z.of_nat (length amps) = 2 ^ n.
Hypothesis Hty : typed amps.
Hypothesis Hgate : gateMatrix gate.

Lemma amplitude_lookup i :
  (i < length amps)%nat → amps !! i = Some (Some (amplitude amps i)).
Proof.
  intros Hi. destruct (typed_lookup amps i Hty Hi) as [c Hc].
  unfold amplitude. by rewrite Hc.
Qed.

Lemma entry_lookup b c :
  b = 0 ∨ b = 1 → c = 0 ∨ c = 1 →
  JS.idx gate b ≫= (λ row, JS.idx row c) = Some (entry gate b c).
Proof.
  intros Hb Hc. destruct (Hgate b c Hb Hc) as [g Hg]. unfold entry. by rewrite Hg.
Qed.

Lemma pair_inside (t : nat) :
  (t < length amps)%nat →
  (cleared pos t < length amps)%nat ∧ (raised pos t < length amps)%nat.
Proof.
  intros Ht. assert (index n (Z.of_nat t)) as Hi by (unfold index; lia).
  pose proof (ldiff_index n pos Hn _ Hi) as [? ?].
  pose proof (lor_index n Hn _ _ Hi (pow2_index n pos Hn Hpos)) as [? ?].
  unfold cleared, raised. split; apply Nat2Z.inj_lt; rewrite Z2Nat.id, Hlen; done.
Qed.

Lemma b2z_bit (b : bool) : Z.b2z b = 0 ∨ Z.b2z b = 1.
Proof. destruct b; auto. Qed.

(** The two accumulations of one state. *)
Lemma gateStep_pair (k : nat) w (f : nat → Complex) :
  length w = length amps → (k < length amps)%nat →
  (∀ t, (t < length amps)%nat → w !! t = Some (Some (f t))) →
  let bit := Z.b2z (Z.testbit (Z.of_nat k) pos) in
  foldlM (gateStep amps gate pos k) w [0; 1]
  = Ok (<[raised pos k := Some (Complex.add (f (raised pos k))
            (Complex.multiply (amplitude amps k) (entry gate 1 bit)))]>
        (<[cleared pos k := Some (Complex.add (f (cleared pos k))
            (Complex.multiply (amplitude amps k) (entry gate 0 bit)))]> w)).
Proof.
  intros Hw Hk Hf bit.
  assert (index n (Z.of_nat k)) as Hi by (unfold index; lia).
  destruct (pair_inside k Hk) as [Hc Hr].
  assert (cleared pos k ≠ raised pos k) as Hne.
  { intros Heq. pose proof (cleared_bit pos ltac:(lia) k) as H0.
    rewrite Heq, raised_bit in H0 by lia. done. }
  cbn [foldlM].
  rewrite (gateStep_eval _ _ _ _ _ _ (entry gate 0 bit) (cleared pos k)
             (f (cleared pos k)) (amplitude amps k)).
  - cbn [mbind result_bind].
    rewrite (gateStep_eval _ _ _ _ _ _ (entry gate 1 bit) (raised pos k)
               (f (raised pos k)) (amplitude amps k)); [done|..].
    + rewrite (bitAt n pos Hn Hpos _ Hi). apply entry_lookup; [auto|apply b2z_bit].
    + rewrite (otherBits n pos Hn Hpos _ Hi).
      rewrite (newState1 n pos Hn Hpos _ (ldiff_index n pos Hn _ Hi)).
      unfold raised. rewrite Z2Nat.id by (apply Z.lor_nonneg; lia).
      apply Z.bits_inj'. intros i Hi'.
      rewrite !Z.lor_spec, Z.ldiff_spec.
      destruct (Z.testbit (Z.of_nat k) i), (Z.testbit (2 ^ pos) i); done.
    + rewrite list_lookup_insert_ne by done. by apply Hf.
    + by apply amplitude_lookup.
  - rewrite (bitAt n pos Hn Hpos _ Hi). apply entry_lookup; [auto|apply b2z_bit].
  - rewrite (otherBits n pos Hn Hpos _ Hi).
    rewrite (newState0 n pos Hn _ (ldiff_index n pos Hn _ Hi)).
    unfold cleared. rewrite Z2Nat.id; [done|]. apply Z.ldiff_nonneg. lia.
  - by apply Hf.
  - by apply amplitude_lookup.
Qed.

(** The array after the visits of the states below [k]. *)
Lemma gatePass_partial (k : nat) :
  (k ≤ length amps)%nat →
  ∃ w, foldlM (λ newAmplitudes state,
                 foldlM (gateStep amps gate pos state) newAmplitudes [0; 1])
         (replicate (length amps) (Some (Complex.mk 0 0))) (seq 0 k) = Ok w
       ∧ length w = length amps
       ∧ ∀ t, (t < length amps)%nat →
              w !! t = Some (Some (partialCell gate pos amps k t)).
Proof.
  assert (0 ≤ pos) as Hp by lia.
  induction k as [|k IH]; intros Hk.
  - eexists. split; [reflexivity|]. split; [apply length_replicate|].
    intros t Ht. rewrite lookup_replicate_2 by done. reflexivity.
  - destruct IH as (w & Hrun & Hw & Hcells); [lia|].
    rewrite seq_S, foldlM_app, Hrun. cbn [mbind result_bind foldlM Nat.add].
    pose proof (gateStep_pair k w (partialCell gate pos amps k) Hw ltac:(lia) Hcells)
      as Hpair. cbn zeta in Hpair. cbn [foldlM] in Hpair. rewrite Hpair.
    cbn [mbind result_bind].
    eexists. split; [reflexivity|]. split; [by rewrite !length_insert|].
    intros t Ht. destruct (pair_inside k ltac:(lia)) as [Hc Hr].
    destruct (decide (t = raised pos k)) as [->|Hnr].
    { rewrite list_lookup_insert_eq by (rewrite length_insert; lia).
      do 2 f_equal. unfold partialCell. rewrite !raised_bit by done.
      pose proof (pair_cases pos Hp k) as Hk'.
      pose proof (pair_cases pos Hp (raised pos k)) as Hrk.
      rewrite raised_bit in Hrk by done.
      destruct Hrk as [(? & _)|(_ & Hrr & Hcr)]; [done|]. rewrite Hrr.
      assert (cleared pos (raised pos k) = cleared pos k) as ->.
      { apply Nat2Z.inj. destruct Hk' as [(? & -> & ?)|(? & -> & ?)]; lia. }
      destruct Hk' as [(Hb & Hck & Hrk)|(Hb & Hrk & Hck)]; rewrite Hb; cbn [Z.b2z].
      - rewrite Hck. ltb_cases; try lia. reflexivity.
      - rewrite Hrk. ltb_cases; try lia. reflexivity. }
    rewrite list_lookup_insert_ne by done.
    destruct (decide (t = cleared pos k)) as [->|Hnc].
    { rewrite list_lookup_insert_eq by lia.
      do 2 f_equal. unfold partialCell. rewrite !cleared_bit by done.
      pose proof (pair_cases pos Hp k) as Hk'.
      pose proof (pair_cases pos Hp (cleared pos k)) as Hck.
      rewrite cleared_bit in Hck by done.
      destruct Hck as [(_ & Hcc & Hrc)|(? & _)]; [|done]. rewrite Hcc.
      assert (raised pos (cleared pos k) = raised pos k) as ->.
      { apply Nat2Z.inj. destruct Hk' as [(? & -> & ?)|(? & -> & ?)]; lia. }
      destruct Hk' as [(Hb & Hck & Hrk)|(Hb & Hrk & Hck)]; rewrite Hb; cbn [Z.b2z].
      - rewrite Hck. ltb_cases; try lia. reflexivity.
      - rewrite Hrk. ltb_cases; try lia. reflexivity. }
    rewrite list_lookup_insert_ne by done. rewrite Hcells by done.
    do 2 f_equal. unfold partialCell.
    assert (cleared pos t ≠ k ∧ raised pos t ≠ k) as [H1 H2].
    { pose proof (pair_cases pos Hp t) as Ht'.
      pose proof (pair_cases pos Hp k) as Hk'.
      split; intros Heq.
      - pose proof (cleared_bit pos Hp t) as Hb. rewrite Heq in Hb.
        destruct Hk' as [(_ & Hck & Hrk)|(? & _)]; [|congruence].
        destruct Ht' as [(_ & Hct & _)|(_ & Hrt & Hct)].
        + apply Hnc. congruence.
        + apply Hnr. apply Nat2Z.inj. lia.
      - pose proof (raised_bit pos Hp t) as Hb. rewrite Heq in Hb.
        destruct Hk' as [(? & _)|(_ & Hrk & Hck)]; [congruence|].
        destruct Ht' as [(_ & Hct & Hrt)|(_ & Hrt & _)].
        + apply Hnc. apply Nat2Z.inj. lia.
        + apply Hnr. congruence. }
    ltb_cases; try lia; reflexivity.
Qed.

Lemma gatePass_product :
  gatePass amps gate pos
  = Ok (Some <$> (gateCell gate pos amps <$> seq 0 (length amps))).
Proof.
  destruct (gatePass_partial (length amps) ltac:(lia)) as (w & Hrun & Hw & Hcells).
  unfold gatePass. rewrite Hrun. f_equal. apply list_eq. intros t.
  destruct (decide (t < length amps)%nat) as [Ht|Ht].
  - rewrite Hcells, !list_lookup_fmap, lookup_seq_lt by done. simpl.
    do 2 f_equal. unfold partialCell, gateCell.
    destruct (pair_inside t Ht). ltb_cases; try lia. reflexivity.
  - rewrite !lookup_ge_None_2; [done|by rewrite !length_fmap, length_seq; lia|lia].
Qed.
End gate_product.

(** X7.  [applyGate] is the product of the gate with the state, pair by pair.
    On a state of the data model, for a gate with its four entries and a
    qubit of the state, the cell [t] of the result is
    [(0 + a0 * g[b][0]) + a1 * g[b][1]], where [b] is the bit of [t] at the
    qubit and [a0], [a1] are the amplitudes of the two indices of the pair
    of [t]; the sums and products are the rounded ones, in this order. *)
Theorem applyGate_product (this : QuantumState) (gate : list (list Complex))
    (qubitIndex : Z) :
  wellFormed this → typed (amplitudes this) → gateMatrix gate →
  0 ≤ qubitIndex < numQubits this →
  applyGate this gate qubitIndex
  = Ok (mk (Some <$> (gateCell gate (numQubits this - 1 - qubitIndex)
                        (amplitudes this)
                      <$> seq 0 (length (amplitudes this))))
           (numQubits this)).
Proof.
  intros Hwf Hty Hgate Hq. pose proof (wellFormed_qubits this Hwf) as Hn.
  destruct Hwf as (_ & Hlen & _). unfold applyGate.
  rewrite (gatePass_product (numQubits this)) by (done || lia). reflexivity.
Qed.

Lemma applyGate_product_witness :
  wellFormed ket10
  ∧ applyGate ket10 QuantumGates.H 0
    = Ok (ket (1 / sqrt 2) 0 (-1 / sqrt 2) 0).
Proof.
  split; [apply wellFormed_ket|].
  rewrite (applyGate_product ket10 QuantumGates.H 0 (wellFormed_ket _ _ _ _)
             (typed_ket _ _ _ _) gateMatrix_H ltac:(simpl; lia)).
  reflexivity.
Defined.

(** ** [X] on the basis states *)

Lemma amplitude_basis size k i :
  (i < size)%nat →
  amplitude (basisAmplitudes size k) i = if (i =? k)%nat then cone else czero.
Proof.
  intros Hi. unfold amplitude. by rewrite basisAmplitudes_lookup.
Qed.

Lemma typed_basis size k : typed (basisAmplitudes size k).
Proof. by exists (basisValues size k). Qed.

Lemma gateMatrix_X : gateMatrix QuantumGates.X.
Proof. intros b bit [->| ->] [->| ->]; simpl; eauto. Qed.

Lemma partner_inside n pos size (t : nat) :
  0 ≤ n ≤ 31 → 0 ≤ pos < n → Z.of_nat size = 2 ^ n →
  (t < size)%nat → (partner pos t < size)%nat.
Proof.
  intros Hn Hpos Hsize Ht.
  assert (index n (Z.of_nat t)) as Hi by (unfold index; lia).
  pose proof (lxor_index n Hn _ _ Hi (pow2_index n pos Hn Hpos)) as [? ?].
  unfold partner. apply Nat2Z.inj_lt. rewrite Z2Nat.id, Hsize; done.
Qed.

Lemma partner_partner pos (t : nat) : 0 ≤ pos → partner pos (partner pos t) = t.
Proof.
  intros Hpos. unfold partner.
  rewrite Z2Nat.id by (apply Z.lxor_nonneg; pose proof (Z.pow_nonneg 2 pos); lia).
  rewrite flip_flip. apply Nat2Z.id.
Qed.

Section X_basis.
Variables (n pos : Z) (size k : nat).
Hypothesis Hn : 0 ≤ n ≤ 31.
Hypothesis Hpos : 0 ≤ pos < n.
Hypothesis Hsize : Z.of_nat size = 2 ^ n.
Hypothesis Hk : (k < size)%nat.

Lemma gateCell_X_basis (t : nat) :
  (t < size)%nat →
  gateCell QuantumGates.X pos (basisAmplitudes size k) t
  = if (t =? partner pos k)%nat then cone else czero.
Proof.
  intros Ht. assert (0 ≤ pos) as Hp by lia.
  assert (length (basisAmplitudes size k) = size) as Hlen
    by apply basisAmplitudes_length.
  destruct (pair_inside n pos (basisAmplitudes size k) Hn Hpos
              ltac:(by rewrite Hlen) t ltac:(by rewrite Hlen)) as [Hc Hr].
  rewrite Hlen in Hc, Hr.
  unfold gateCell. rewrite !amplitude_basis by done.
  pose proof (pair_cases pos Hp t) as Ht'.
  pose proof (partner_cases pos Hp k) as Hk'.
  pose proof (pair_cases pos Hp k) as Hk''.
  pose proof (raised_bit pos Hp t). pose proof (cleared_bit pos Hp t).
  pose proof (raised_bit pos Hp k). pose proof (cleared_bit pos Hp k).
  destruct Ht' as [(Hb & Hct & Hrt)|(Hb & Hrt & Hct)]; rewrite Hb; cbn [Z.b2z].
  - destruct Hk' as [(Hbk & ->)|(Hbk & ->)],
      Hk'' as [(Hbk' & Hck & Hrk)|(Hbk' & Hrk & Hck)]; try congruence;
      repeat match goal with
             | |- context [(?a =? ?b)%nat] => destruct (Nat.eqb_spec a b)
             end; try reflexivity; exfalso; try lia; try congruence.
  - destruct Hk' as [(Hbk & ->)|(Hbk & ->)],
      Hk'' as [(Hbk' & Hck & Hrk)|(Hbk' & Hrk & Hck)]; try congruence;
      repeat match goal with
             | |- context [(?a =? ?b)%nat] => destruct (Nat.eqb_spec a b)
             end; try reflexivity; exfalso; try lia; try congruence.
Qed.

Lemma gatePass_X_basis :
  gatePass (basisAmplitudes size k) QuantumGates.X pos
  = Ok (basisAmplitudes size (partner pos k)).
Proof.
  rewrite (gatePass_product n);
    [|done|done|by rewrite basisAmplitudes_length|apply typed_basis|apply gateMatrix_X].
  f_equal. rewrite basisAmplitudes_length. unfold basisAmplitudes, basisValues.
  f_equal. apply list_eq. intros t. rewrite !list_lookup_fmap.
  destruct (decide (t < size)%nat) as [Ht|Ht].
  - rewrite lookup_seq_lt by done. simpl. f_equal. by apply gateCell_X_basis.
  - by rewrite lookup_seq_ge by lia.
Qed.
End X_basis.

(** X8.  [X] flips one bit of a basis state: on the basis state [|k⟩] of [n]
    qubits, [applyGate(X, q)] gives exactly the basis state whose index
    differs from [k] in the bit [n - 1 - q], and a second [applyGate(X, q)]
    gives back [|k⟩]. *)
Theorem applyGate_X_basis (n q : Z) (k : nat) :
  0 ≤ n ≤ 31 → 0 ≤ q < n → Z.of_nat k < 2 ^ n →
  let size := Z.to_nat (2 ^ n) in
  let this := mk (basisAmplitudes size k) n in
  let flipped := mk (basisAmplitudes size (partner (n - 1 - q) k)) n in
  Z.of_nat (partner (n - 1 - q) k) = Z.lxor (Z.of_nat k) (2 ^ (n - 1 - q))
  ∧ applyGate this QuantumGates.X q = Ok flipped
  ∧ applyGate flipped QuantumGates.X q = Ok this.
Proof.
  intros Hn Hq Hk size this flipped.
  assert (0 < 2 ^ n) as Hpow by (apply Z.pow_pos_nonneg; lia).
  assert (Z.of_nat size = 2 ^ n) as Hsize by (unfold size; lia).
  assert (k < size)%nat as Hks by lia.
  split; [|split].
  - unfold partner. rewrite Z2Nat.id; [done|]. apply Z.lxor_nonneg.
    pose proof (Z.pow_nonneg 2 (n - 1 - q)). lia.
  - unfold applyGate, this. cbn [amplitudes numQubits].
    rewrite (gatePass_X_basis n) by (done || lia). reflexivity.
  - unfold applyGate, flipped. cbn [amplitudes numQubits].
    rewrite (gatePass_X_basis n (n - 1 - q) size (partner (n - 1 - q) k));
      [|done|lia|done|apply (partner_inside n (n - 1 - q)); (done || lia)].
    rewrite partner_partner by lia. reflexivity.
Qed.

Lemma applyGate_X_basis_witness :
  applyGate (mk (basisAmplitudes 8 5) 3) QuantumGates.X 1
  = Ok (mk (basisAmplitudes 8 7) 3).
Proof.
  apply (applyGate_X_basis 3 1 5); [lia|lia|reflexivity].
Defined.

(** ** [applyCNOT] with the control as its own target

    The control bit differs on the two indices of a pair, so the pass
    visits each pair once and leaves it swapped. *)
Section swap_once.
Context {A : Type}.
Variable len : nat.
Variable ctrl : nat → bool.
Variable p : nat → nat.
Hypothesis p_lt : ∀ s, (s < len)%nat → (p s < len)%nat.
Hypothesis p_inv : ∀ s, (s < len)%nat → p (p s) = s.
Hypothesis p_ctrl : ∀ s, (s < len)%nat → ctrl (p s) = negb (ctrl s).

Lemma swap_once_visited k (a : list (option A)) :
  length a = len → (k ≤ len)%nat →
  length (foldl (swapStep ctrl p) a (seq 0 k)) = len ∧
  ∀ i, (i < len)%nat →
       foldl (swapStep ctrl p) a (seq 0 k) !! i = a !! swappedOnce ctrl p k i.
Proof.
  intros Hlen. induction k as [|k IH]; intros Hk.
  - split; [done|]. intros i Hi. reflexivity.
  - destruct IH as [IHlen IH]; [lia|].
    rewrite seq_S, foldl_app. simpl.
    set (b := foldl (swapStep ctrl p) a (seq 0 k)) in *.
    assert (swapStep ctrl p b k = if ctrl k
              then <[p k := mjoin (b !! k)]> (<[k := mjoin (b !! p k)]> b)
              else b) as -> by reflexivity.
    pose proof (p_lt k ltac:(lia)) as Hpk.
    pose proof (p_ctrl k ltac:(lia)) as Hcpk.
    pose proof (p_inv k ltac:(lia)) as Hppk.
    destruct (ctrl k) eqn:Hck.
    + assert (p k ≠ k) as Hnk by (intros Heq; rewrite Heq, Hck in Hcpk; done).
      split; [by rewrite !length_insert|].
      intros i Hi.
      destruct (decide (i = p k)) as [->|Hipk].
      * rewrite list_lookup_insert_eq by (rewrite length_insert; lia).
        rewrite some_mjoin, IH by lia.
        f_equal. unfold swappedOnce. rewrite Hck, Hcpk, Hppk. simpl.
        ltb_cases; lia.
      * rewrite list_lookup_insert_ne by done.
        destruct (decide (i = k)) as [->|Hik].
        -- rewrite list_lookup_insert_eq by lia.
           rewrite some_mjoin, IH by lia.
           f_equal. unfold swappedOnce. rewrite Hck, Hcpk, Hppk. simpl.
           ltb_cases; lia.
        -- rewrite list_lookup_insert_ne by done. rewrite IH by done.
           f_equal. unfold swappedOnce.
           assert (p i ≠ k) by (intros <-; rewrite p_inv in Hipk; done).
           destruct (ctrl i); ltb_cases; try lia; done.
    + split; [done|]. intros i Hi. rewrite IH by done. f_equal.
      unfold swappedOnce. pose proof (p_ctrl i Hi) as Hcpi.
      destruct (ctrl i) eqn:Hci.
      * assert (i ≠ k) by (intros ->; congruence). ltb_cases; try lia; done.
      * assert (p i ≠ k) by (intros <-; simpl in Hcpi; congruence).
        ltb_cases; try lia; done.
Qed.
End swap_once.

Lemma cnotPass_same {A : Type} n pos (a : list (option A)) :
  0 ≤ n ≤ 31 → 0 ≤ pos < n → Z.of_nat (length a) = 2 ^ n →
  length (cnotPass a pos pos) = length a
  ∧ ∀ i, (i < length a)%nat → cnotPass a pos pos !! i = a !! partner pos i.
Proof.
  intros Hn Hpos Hlen. unfold cnotPass.
  rewrite (cnotPass_swap n) by
    (done || apply Forall_forall; intros s Hs%elem_of_seq; lia).
  assert (∀ s, (s < length a)%nat → index n (Z.of_nat s)) as Hidx
    by (intros; unfold index; lia).
  destruct (swap_once_visited (A := A) (length a) (controlled pos) (partner pos))
    with (k := length a) (a := a) as [Hl Hv]; [| | |done|lia|].
  - intros s Hs. by apply (partner_inside n).
  - intros s Hs. apply partner_partner. lia.
  - intros s Hs. destruct (partner_index n pos Hn Hpos s (Hidx s Hs)).
    unfold controlled, partner.
    rewrite Z2Nat.id by lia. rewrite (flip_testbit n pos Hpos) by lia.
    rewrite bool_decide_eq_true_2 by done. apply xorb_true_r.
  - split; [done|]. intros i Hi. rewrite Hv by done. f_equal.
    unfold swappedOnce. pose proof (partner_inside n pos _ i Hn Hpos Hlen Hi).
    destruct (controlled pos i); ltb_cases; lia.
Qed.

(** X9.  [applyCNOT] does not ask that the control and the target differ.
    With the same qubit in both places, on a state of the data model, the
    result holds at every index what the receiver holds at the index with
    the bit of that qubit flipped: the call acts as a NOT on the qubit.  *)
Theorem applyCNOT_same_qubit (this : QuantumState) (q : Z) :
  wellFormed this → 0 ≤ q < numQubits this →
  ∃ new, applyCNOT this q q = Ok new
         ∧ numQubits new = numQubits this
         ∧ length (amplitudes new) = length (amplitudes this)
         ∧ ∀ i, (i < length (amplitudes this))%nat →
                amplitudes new !! i
                = amplitudes this !! partner (numQubits this - 1 - q) i.
Proof.
  intros Hwf Hq. pose proof (wellFormed_qubits this Hwf) as Hn.
  destruct Hwf as (_ & Hlen & _).
  destruct (cnotPass_same (numQubits this) (numQubits this - 1 - q)
              (amplitudes this) Hn ltac:(lia) Hlen) as [Hl Hv].
  eexists. split; [reflexivity|]. cbn [numQubits amplitudes]. auto.
Qed.

Lemma applyCNOT_same_qubit_witness :
  wellFormed ket10
  ∧ ∃ new, applyCNOT ket10 0 0 = Ok new
           ∧ amplitudes new !! 0%nat = amplitudes ket10 !! 2%nat
           ∧ amplitudes new !! 2%nat = amplitudes ket10 !! 0%nat.
Proof.
  split; [apply wellFormed_ket|].
  destruct (applyCNOT_same_qubit ket10 0 (wellFormed_ket _ _ _ _)
              ltac:(simpl; lia)) as (new & Hnew & _ & _ & Hcells).
  exists new. split; [exact Hnew|].
  split; [apply (Hcells 0%nat)|apply (Hcells 2%nat)]; simpl; lia.
Defined.

(** ** The copies made by the constructor and by [getAmplitudes] *)

Lemma getAmplitudes_run this h a :
  h !! Obj.amplitudes this = Some a →
  Obj.getAmplitudes this h = (Ok (length h), h ++ [a]).
Proof.
  intros Ha. unfold Obj.getAmplitudes, mbind, Obj.M_bind, Obj.cells.
  by rewrite Ha.
Qed.

(** X10.  The array [getAmplitudes()] returns and the array the constructor
    keeps are new arrays.  A caller that writes to the array it got from
    [getAmplitudes()], or to the [initialState] it gave to the constructor,
    changes nothing of what the instance shows afterwards. *)
Theorem copies_are_private (h : Obj.heap) (this : Obj.t) (init : Obj.loc)
    (a b : list (option Complex)) (numQubits : Z) (i : Z) (v : option Complex) :
  h !! Obj.amplitudes this = Some a → h !! init = Some b →
  (∃ l h', Obj.getAmplitudes this h = (Ok l, h')
           ∧ h' !! l = Some a
           ∧ l ≠ Obj.amplitudes this
           ∧ Obj.observed this (snd (Obj.setCell l i v h')) = Some a)
  ∧ (∃ new h', Obj.constructor numQubits (Some init) h = (Ok new, h')
               ∧ Obj.amplitudes new ≠ init
               ∧ Obj.observed new h' = Some b
               ∧ Obj.observed new (snd (Obj.setCell init i v h')) = Some b).
Proof.
  intros Ha Hb.
  assert (Obj.amplitudes this < length h)%nat as Hlt by (by eapply lookup_lt_Some).
  assert (init < length h)%nat as Hlt' by (by eapply lookup_lt_Some).
  split.
  - exists (length h), (h ++ [a]). rewrite (getAmplitudes_run this h a Ha).
    split; [done|]. split; [apply lookup_snoc_here|]. split; [lia|].
    rewrite (setCell_run _ _ _ _ a) by apply lookup_snoc_here. cbn [snd].
    apply observed_live. rewrite list_lookup_insert_ne by lia.
    by apply lookup_app_l_Some.
  - exists (Obj.mk (length h) numQubits), (h ++ [b]).
    rewrite (constructor_run numQubits init h b Hb). cbn [Obj.amplitudes].
    split; [done|]. split; [lia|].
    split; [apply observed_live, lookup_snoc_here|].
    rewrite (setCell_run _ _ _ _ b) by (by apply lookup_app_l_Some). cbn [snd].
    apply observed_live. cbn [Obj.amplitudes].
    rewrite list_lookup_insert_ne by lia. apply lookup_snoc_here.
Qed.

Lemma copies_are_private_witness :
  heap0 !! Obj.amplitudes this0 = Some (amplitudes ket10)
  ∧ ∃ l h', Obj.getAmplitudes this0 heap0 = (Ok l, h')
            ∧ Obj.observed this0 (snd (Obj.setCell l 2 (Some czero) h'))
              = Some (amplitudes ket10).
Proof.
  split; [reflexivity|].
  destruct (copies_are_private heap0 this0 0%nat (amplitudes ket10)
              (amplitudes ket10) 2 2 (Some czero) eq_refl eq_refl)
    as [(l & h' & Hrun & _ & _ & Hobs) _].
  exists l, h'. split; [exact Hrun|exact Hobs].
Defined.

(** ** The arithmetic of [Complex]

    The sums and products of binary64 numbers are commutative, signed
    zeros, infinities and NaN included, and so are the ones of [Complex]. *)

Lemma float_add_comm (x y : float) : (x + y = y + x)%float.
Proof.
  apply Prim2SF_inj. rewrite !add_spec. unfold SF64add, SFadd.
  destruct (Prim2SF x) as [[]|[]| |sx mx ex], (Prim2SF y) as [[]|[]| |sy my ey];
    try reflexivity.
  by rewrite Z.min_comm, Z.add_comm.
Qed.

Lemma float_mul_comm (x y : float) : (x * y = y * x)%float.
Proof.
  apply Prim2SF_inj. rewrite !mul_spec. unfold SF64mul, SFmul.
  destruct (Prim2SF x) as [sx|sx| |sx mx ex], (Prim2SF y) as [sy|sy| |sy my ey];
    try reflexivity; try (by rewrite xorb_comm).
  by rewrite xorb_comm, Pos.mul_comm, Z.add_comm.
Qed.

Lemma float_opp_opp (x : float) : (- - x = x)%float.
Proof.
  apply Prim2SF_inj. rewrite !opp_spec.
  destruct (Prim2SF x) as [[]|[]| |[] mx ex]; reflexivity.
Qed.

Lemma float_mul_opp_opp (x : float) : (- x * - x = x * x)%float.
Proof.
  apply Prim2SF_inj. rewrite !mul_spec, !opp_spec.
  destruct (Prim2SF x) as [[]|[]| |[] mx ex]; reflexivity.
Qed.

(** X11.  [add] and [multiply] do not depend on which operand is the receiver:
    [a.add(b)] and [b.add(a)], and [a.multiply(b)] and [b.multiply(a)], are
    the same numbers bit for bit. *)
Theorem complex_operations_commute (a b : Complex) :
  Complex.add a b = Complex.add b a
  ∧ Complex.multiply a b = Complex.multiply b a.
Proof.
  split.
  - unfold Complex.add. f_equal; apply float_add_comm.
  - unfold Complex.multiply. f_equal.
    + by rewrite (float_mul_comm (Complex.real a)),
        (float_mul_comm (Complex.imaginary a)).
    + rewrite float_add_comm.
      by rewrite (float_mul_comm (Complex.real a)),
        (float_mul_comm (Complex.imaginary a)).
Qed.

(** X12.  [conjugate] is an involution and keeps the magnitude, exactly. *)
Theorem conjugate_involutive (c : Complex) :
  Complex.conjugate (Complex.conjugate c) = c
  ∧ Complex.magnitude (Complex.conjugate c) = Complex.magnitude c.
Proof.
  split.
  - destruct c as [re im]. unfold Complex.conjugate. cbn [Complex.real Complex.imaginary].
    by rewrite float_opp_opp.
  - unfold Complex.magnitude, Complex.conjugate. cbn [Complex.real Complex.imaginary].
    by rewrite float_mul_opp_opp.
Qed.

(** ** The runs as the page sees them *)

(** [applyGate] on a state of the data model: the position of the qubit,
    taken modulo 32, is either outside the state, and the call throws, or
    inside, and the call returns a state of the same kind. *)
Lemma applyGate_cases this gate q :
  wellFormed this → typed (amplitudes this) → gateMatrix gate →
  let p := (numQubits this - 1 - q) `mod` 32 in
  (numQubits this ≤ p ∧ applyGate this gate q = Throw TypeError)
  ∨ (p < numQubits this
     ∧ ∃ new, applyGate this gate q = Ok new ∧ sound (numQubits this) new).
Proof.
  intros Hwf Hty Hgate p. pose proof (wellFormed_qubits this Hwf) as Hn.
  assert (0 ≤ p < 32) as Hp by (apply Z.mod_pos_bound; lia).
  assert (applyGate this gate q
          = (newAmplitudes ← gatePass (amplitudes this) gate p;
             constructor (numQubits this) (Some newAmplitudes))) as ->.
  { unfold applyGate, p. by rewrite gatePass_mod_32. }
  destruct Hwf as (H0 & Hlen & Hmax).
  destruct (Z.le_gt_cases (numQubits this) p) as [Hout|Hin]; [left|right].
  - split; [done|].
    by rewrite (gatePass_outside (numQubits this) p) by (done || lia).
  - split; [lia|].
    destruct (gatePass_total (numQubits this) p (amplitudes this) gate Hn
                ltac:(lia) Hlen Hty Hgate) as (v & -> & Hv & Htv).
    eexists. split; [reflexivity|]. unfold sound, wellFormed.
    cbn [amplitudes numQubits]. rewrite Hv. done.
Qed.

Lemma gateMatrix_library symbol matrix :
  libraryEntry symbol = Some matrix → gateMatrix matrix.
Proof.
  unfold libraryEntry. intros Hm.
  repeat (destruct (String.eqb _ _); [simplify_eq; intros b bit [->| ->] [->| ->]; by eexists|]).
  done.
Qed.

Lemma applySymbol_sound n state g state' :
  sound n state → applySymbol state g = Ok state' → sound n state'.
Proof.
  intros (Hwf & Hty & Hn) Hrun. unfold applySymbol in Hrun.
  destruct (libraryEntry (symbol g)) as [matrix|] eqn:Hm; [|by simplify_eq].
  destruct (applyGate_cases state matrix (qubit g) Hwf Hty
              (gateMatrix_library _ _ Hm)) as [(_ & Hthrow)|(_ & new & Hnew & Hs)].
  - congruence.
  - rewrite Hn in Hs. congruence.
Qed.

Lemma applySymbol_total n state g :
  sound n state → 0 ≤ qubit g < n → ∃ state', applySymbol state g = Ok state'.
Proof.
  intros (Hwf & Hty & Hn) Hq. unfold applySymbol.
  destruct (libraryEntry (symbol g)) as [matrix|] eqn:Hm; [|by eexists].
  destruct (applyGate_cases state matrix (qubit g) Hwf Hty
              (gateMatrix_library _ _ Hm)) as [(Hout & _)|(_ & new & Hnew & _)].
  - pose proof (wellFormed_qubits state Hwf).
    rewrite Z.mod_small in Hout by lia. lia.
  - by exists new.
Qed.

Lemma foldlM_sound n gs state state' :
  sound n state → foldlM applySymbol state gs = Ok state' → sound n state'.
Proof.
  revert state. induction gs as [|g gs IH]; intros state Hs Hrun; simpl in Hrun.
  - by simplify_eq.
  - destruct (applySymbol state g) as [s1|] eqn:H1; [|done]. simpl in Hrun.
    apply (IH s1); [|done]. by apply (applySymbol_sound n state g).
Qed.

Lemma foldlM_total n gs state :
  sound n state → Forall (λ g, 0 ≤ qubit g < n) gs →
  ∃ state', foldlM applySymbol state gs = Ok state'.
Proof.
  intros Hs Hall. revert state Hs.
  induction Hall as [|g gs Hg _ IH]; intros state Hs; simpl; [by eexists|].
  destruct (applySymbol_total n state g Hs Hg) as [s1 H1]. rewrite H1. simpl.
  apply IH. by apply (applySymbol_sound n state g).
Qed.

Lemma constructor_sound n state : constructor n None = Ok state → sound n state.
Proof.
  rewrite constructor_range. case_decide as Hn; [|done]. intros [= <-].
  assert (0 < 2 ^ n) by (apply Z.pow_pos_nonneg; lia).
  assert (2 ^ n ≤ 2 ^ 31) by (apply Z.pow_le_mono_r; lia).
  unfold sound, wellFormed, JS.maxArrayLength. cbn [amplitudes numQubits].
  rewrite zeroAmplitudes_length. repeat split; try lia.
  rewrite zeroAmplitudes_basis. apply typed_basis.
Qed.

Lemma handleCircuitRun_sound n gates state :
  handleCircuitRun n gates = Ok state → sound n state.
Proof.
  unfold handleCircuitRun. destruct (constructor n None) as [s0|] eqn:H0; [|done].
  simpl. apply foldlM_sound. by apply constructor_sound.
Qed.

Lemma updateSteppedState_sound n cutoff gates state :
  updateSteppedState n cutoff gates = Ok state → sound n state.
Proof.
  unfold updateSteppedState. destruct (constructor n None) as [s0|] eqn:H0; [|done].
  simpl. rewrite steppedLoop_filter by apply sortByStep_sorted.
  apply foldlM_sound. by apply constructor_sound.
Qed.

Lemma mapM_total {A B} (P : B → Prop) (f : A → result B) (l : list A) :
  Forall (λ x, ∃ y, f x = Ok y ∧ P y) l →
  ∃ ys, mapM f l = Ok ys ∧ length ys = length l ∧ Forall P ys.
Proof.
  induction 1 as [|x l (y & Hy & HP) _ (ys & Hys & Hlen & HPs)].
  - by exists [].
  - exists (y :: ys). simpl. rewrite Hy. simpl. rewrite Hys. simpl.
    repeat split; [by rewrite Hlen|by constructor].
Qed.

Lemma Array_from_total {A} (P : A → Prop) (n : Z) (f : Z → result A) :
  n ≤ 31 → (∀ i, 0 ≤ i < n → ∃ y, f i = Ok y ∧ P y) →
  ∃ ys, Page.Array_from n f = Ok ys ∧ length ys = Z.to_nat n ∧ Forall P ys.
Proof.
  intros Hn Hf. unfold Page.Array_from.
  destruct (Z.ltb_spec JS.maxArrayLength n) as [Hbig|_];
    [unfold JS.maxArrayLength in Hbig; lia|].
  destruct (mapM_total P (λ i : nat, f (Z.of_nat i)) (seq 0 (Z.to_nat n)))
    as (ys & Hys & Hlen & HP).
  - apply Forall_forall. intros i Hi%elem_of_seq. apply Hf. lia.
  - exists ys. by rewrite Hlen, length_seq in *.
Qed.

Lemma getBlochVector_total this q :
  typed (amplitudes this) → q < numQubits this →
  ∃ v, getBlochVector this q = Ok v.
Proof.
  intros Hty Hq.
  destruct (getReducedDensityMatrix_total this q Hty Hq)
    as (m & Hm & (a & b & c & d & ->)).
  unfold getBlochVector. rewrite Hm. simpl. eauto.
Qed.

Lemma present_sound n state : sound n state → allSet n (Page.present n state).
Proof.
  intros Hs. pose proof Hs as (Hwf & Hty & Hn).
  pose proof (wellFormed_qubits state Hwf) as Hn31. rewrite Hn in Hn31.
  destruct (Array_from_total (λ _, True) n (getBlochVector state))
    as (vectors & Hv & Hlv & _); [lia| |].
  { intros i Hi. destruct (getBlochVector_total state i Hty ltac:(lia)) as [v ->].
    eauto. }
  destruct (Array_from_total twoByTwo n (getReducedDensityMatrix state))
    as (matrices & Hm & Hlm & H22); [lia| |].
  { intros i Hi. apply getReducedDensityMatrix_total; [done|lia]. }
  unfold Page.present. rewrite Hv, Hm. by exists state, vectors, matrices.
Qed.

(** X13.  A run is all or nothing.  Whatever the circuit and the number of
    qubits, [handleCircuitRun] and [updateSteppedState] either fail before
    the first setter, and leave what the page shows as it was, or set the
    state, a Bloch vector for every qubit and a density matrix of two rows
    and two columns for every qubit: the observables never fail on the
    state a run ends in. *)
Theorem runs_are_all_or_nothing (numQubits cutoff : Z) (gates : list QuantumGate) :
  (nothingSet (Page.handleCircuitRun numQubits gates)
   ∨ allSet numQubits (Page.handleCircuitRun numQubits gates))
  ∧ (nothingSet (Page.updateSteppedState numQubits cutoff gates)
     ∨ allSet numQubits (Page.updateSteppedState numQubits cutoff gates)).
Proof.
  split.
  - unfold Page.handleCircuitRun.
    destruct (handleCircuitRun numQubits gates) as [state|e] eqn:Hrun;
      [right|by left].
    by apply present_sound, (handleCircuitRun_sound _ gates).
  - unfold Page.updateSteppedState.
    destruct (updateSteppedState numQubits cutoff gates) as [state|e] eqn:Hrun;
      [right|by left].
    by apply present_sound, (updateSteppedState_sound _ cutoff gates).
Qed.

(** X14.  With at most 31 qubits and every placement on a qubit of the
    register, neither run fails, whatever the symbols and the steps of
    the placements. *)
Theorem runs_succeed_in_range (numQubits cutoff : Z) (gates : list QuantumGate) :
  0 ≤ numQubits ≤ 31 → Forall (λ g, 0 ≤ qubit g < numQubits) gates →
  allSet numQubits (Page.handleCircuitRun numQubits gates)
  ∧ allSet numQubits (Page.updateSteppedState numQubits cutoff gates).
Proof.
  intros Hn Hall.
  assert (∃ s0, constructor numQubits None = Ok s0 ∧ sound numQubits s0)
    as (s0 & H0 & Hs0).
  { rewrite constructor_range. case_decide; [|done]. eexists. split; [done|].
    apply constructor_sound. rewrite constructor_range. by case_decide. }
  assert (∀ gs, Forall (λ g, 0 ≤ qubit g < numQubits) gs →
                ∃ state, foldlM applySymbol s0 gs = Ok state
                         ∧ sound numQubits state) as Hrun.
  { intros gs Hgs. destruct (foldlM_total numQubits gs s0 Hs0 Hgs) as [state Hst].
    exists state. split; [done|]. by apply (foldlM_sound numQubits gs s0). }
  split.
  - unfold Page.handleCircuitRun, handleCircuitRun. rewrite H0. simpl.
    destruct (Hrun (sortByStep gates)) as (state & -> & Hs).
    { by rewrite sortByStep_perm. }
    by apply present_sound.
  - unfold Page.updateSteppedState, updateSteppedState. rewrite H0. simpl.
    rewrite steppedLoop_filter by apply sortByStep_sorted.
    destruct (Hrun (filter (λ g, step g < cutoff) (sortByStep gates)))
      as (state & -> & Hs).
    { apply Forall_forall. intros g [_ Hg]%list_elem_of_filter.
      rewrite sortByStep_perm in Hg. by apply (proj1 (Forall_forall _ _) Hall). }
    by apply present_sound.
Qed.

Lemma runs_succeed_in_range_witness :
  Forall (λ g, 0 ≤ qubit g < 2) circuit0
  ∧ Page.caught (Page.handleCircuitRun 2 circuit0) = false
  ∧ Page.caught (Page.updateSteppedState 2 1 circuit0) = false.
Proof.
  assert (Forall (λ g, 0 ≤ qubit g < 2) circuit0) as Hall.
  { unfold circuit0. repeat constructor; simpl; lia. }
  split; [exact Hall|].
  destruct (runs_succeed_in_range 2 1 circuit0 ltac:(lia) Hall)
    as [(s & v & m & -> & _) (s' & v' & m' & -> & _)].
  split; reflexivity.
Defined.

(** ** Stepping through a circuit *)

Lemma Math_max_ge (xs : list Z) (d x : Z) : x ∈ xs → x ≤ JS.Math_max xs d.
Proof.
  unfold JS.Math_max. induction xs as [|y xs IH]; intros Hx; [by inversion Hx|].
  apply elem_of_cons in Hx as [->|Hx]; simpl; [lia|]. specialize (IH Hx). lia.
Qed.

Lemma Math_max_init (xs : list Z) (d : Z) : d ≤ JS.Math_max xs d.
Proof. unfold JS.Math_max. induction xs as [|y xs IH]; simpl; lia. Qed.

Lemma Math_max_elem (xs : list Z) (d : Z) :
  JS.Math_max xs d = d ∨ JS.Math_max xs d ∈ xs.
Proof.
  unfold JS.Math_max. induction xs as [|y xs IH]; simpl; [by left|].
  destruct (Z.max_spec y (foldr Z.max d xs)) as [[_ ->]|[_ ->]].
  - destruct IH as [IH|IH]; [by left|right]. by apply elem_of_cons; right.
  - right. by apply elem_of_cons; left.
Qed.

Lemma steps_below_total gates : Forall (λ g, step g < totalSteps gates) gates.
Proof.
  apply Forall_forall. intros g Hg. unfold totalSteps.
  pose proof (Math_max_ge (step <$> gates) 0 (step g)
                ltac:(by apply list_elem_of_fmap_2)). lia.
Qed.

(** In a list sorted by step, the placements below [s + 1] are the ones
    below [s] followed by the ones at [s]. *)
Lemma sorted_filter_next (s : Z) (gs : list QuantumGate) :
  StronglySorted stepLe gs →
  filter (λ g, step g < s + 1) gs
  = filter (λ g, step g < s) gs ++ filter (λ g, step g = s) gs.
Proof.
  induction 1 as [|g gs Hsorted IH Hle]; [done|].
  rewrite !filter_cons.
  destruct (decide (step g < s + 1)), (decide (step g < s)), (decide (step g = s));
    try lia.
  - by rewrite IH.
  - rewrite IH. rewrite (filter_none (λ g', step g' < s) gs); [done|].
    eapply Forall_impl; [exact Hle|]. intros g' Hg'. unfold stepLe in Hg'. lia.
  - done.
Qed.

Lemma stepForward_iter numQubits gates (k : nat) :
  Nat.iter k (λ s, fst (Page.handleStepForward numQubits s gates)) 0
  = Z.min (Z.of_nat k) (totalSteps gates).
Proof.
  assert (0 < totalSteps gates) as Hpos.
  { unfold totalSteps. pose proof (Math_max_init (step <$> gates) 0). lia. }
  induction k as [|k IH]; [simpl; lia|].
  rewrite Nat.iter_succ, IH. unfold Page.handleStepForward.
  fold (totalSteps gates).
  destruct (Z.ltb_spec (Z.min (Z.of_nat k) (totalSteps gates)) (totalSteps gates));
    cbn [fst]; lia.
Qed.

(** X15.  Stepping forward from the start visits the steps 1, 2, ... up to the
    depth of the circuit and stops there; what the stepped run shows at
    the depth is what a full run of the same circuit shows. *)
Theorem stepping_reaches_the_full_run (numQubits : Z) (gates : list QuantumGate)
    (k : nat) :
  Nat.iter k (λ s, fst (Page.handleStepForward numQubits s gates)) 0
  = Z.min (Z.of_nat k) (totalSteps gates)
  ∧ updateSteppedState numQubits (totalSteps gates) gates
    = handleCircuitRun numQubits gates
  ∧ Page.updateSteppedState numQubits (totalSteps gates) gates
    = Page.handleCircuitRun numQubits gates.
Proof.
  assert (updateSteppedState numQubits (totalSteps gates) gates
          = handleCircuitRun numQubits gates) as Heq.
  { unfold updateSteppedState, handleCircuitRun.
    destruct (constructor numQubits None) as [s0|]; [|done]. simpl.
    rewrite steppedLoop_filter by apply sortByStep_sorted.
    rewrite filter_all; [done|]. rewrite sortByStep_perm.
    apply steps_below_total. }
  split; [apply stepForward_iter|]. split; [done|].
  unfold Page.updateSteppedState, Page.handleCircuitRun. by rewrite Heq.
Qed.

(** X16.  One step forward applies the placements of that step, in the order in
    which they were added to the circuit, to the state of the step before;
    and with no placement at a negative step, step 0 shows the state
    [|00...0⟩] of the constructor. *)
Theorem stepping_applies_one_step (numQubits s : Z) (gates : list QuantumGate) :
  updateSteppedState numQubits (s + 1) gates
  = (state ← updateSteppedState numQubits s gates;
     foldlM applySymbol state (filter (λ g, step g = s) gates))
  ∧ (Forall (λ g, 0 ≤ step g) gates →
     updateSteppedState numQubits 0 gates = constructor numQubits None).
Proof.
  unfold updateSteppedState.
  destruct (constructor numQubits None) as [s0|]; [|done]. simpl.
  rewrite !steppedLoop_filter by apply sortByStep_sorted. split.
  - rewrite sorted_filter_next by apply sortByStep_sorted.
    by rewrite foldlM_app, sortByStep_stable.
  - intros Hall. rewrite filter_none; [done|]. rewrite sortByStep_perm.
    eapply Forall_impl; [exact Hall|]. simpl. lia.
Qed.

Lemma stepping_applies_one_step_witness :
  Forall (λ g, 0 ≤ step g) circuit0
  ∧ updateSteppedState 2 0 circuit0 = constructor 2 None.
Proof.
  assert (Forall (λ g, 0 ≤ step g) circuit0) as Hall.
  { unfold circuit0. repeat constructor; simpl; lia. }
  split; [exact Hall|].
  exact (proj2 (stepping_applies_one_step 2 0 circuit0) Hall).
Defined.

(** ** Clearing the circuit *)



(** ** Building a circuit *)

(** What [handleGateSelect] appends. *)
Lemma handleGateSelect_cases gates q sym :
  (20 ≤ Z.of_nat (length gates) ∧ Page.handleGateSelect gates q sym = gates)
  ∨ (Z.of_nat (length gates) < 20
     ∧ ∃ s, Page.handleGateSelect gates q sym = gates ++ [mkGate sym q s]
            ∧ 0 ≤ s
            ∧ (∀ g, g ∈ gates → qubit g = q → step g < s)
            ∧ (s = 0 ∨ ∃ g, g ∈ gates ∧ qubit g = q ∧ s = step g + 1)).
Proof.
  unfold Page.handleGateSelect.
  destruct (Z.leb_spec 20 (Z.of_nat (length gates))); [by left|right].
  split; [done|]. eexists. split; [reflexivity|].
  set (steps := step <$> filter (λ g, qubit g = q) gates).
  pose proof (Math_max_init steps (-1)). split; [lia|]. split.
  - intros g Hg Hq.
    assert (step g ∈ steps) as Hin
      by (by apply list_elem_of_fmap_2, list_elem_of_filter).
    pose proof (Math_max_ge steps (-1) (step g) Hin). lia.
  - destruct (Math_max_elem steps (-1)) as [->|Hin]; [by left|right].
    apply list_elem_of_fmap in Hin as (g & Hs & [Hq Hg]%list_elem_of_filter).
    exists g. repeat split; [done..|lia].
Qed.

(** X18.  [handleGateSelect] puts the new placement on the selected qubit in
    the first column after all the placements of that qubit (column 0 when
    there is none), so in a cell that was free, and refuses a twenty-first
    placement.  Columns left free by a removal are not filled again. *)
Theorem handleGateSelect_appends (gates : list QuantumGate) (selectedQubit : Z)
    (gateInfo : string) :
  let newGates := Page.handleGateSelect gates selectedQubit gateInfo in
  (20 ≤ Z.of_nat (length gates) → newGates = gates)
  ∧ (Z.of_nat (length gates) < 20 →
     ∃ newGate, newGates = gates ++ [newGate]
       ∧ symbol newGate = gateInfo
       ∧ qubit newGate = selectedQubit
       ∧ 0 ≤ step newGate
       ∧ (cell newGate ∉ cell <$> gates)
       ∧ (∀ g, g ∈ gates → qubit g = selectedQubit → step g < step newGate)
       ∧ (step newGate = 0
          ∨ ∃ g, g ∈ gates ∧ qubit g = selectedQubit
                 ∧ step newGate = step g + 1)).
Proof.
  intros newGates. unfold newGates.
  destruct (handleGateSelect_cases gates selectedQubit gateInfo)
    as [[Hfull ->]|(Hroom & s & -> & Hs & Hlast & Hnext)].
  - split; [done|lia].
  - split; [lia|]. intros _. exists (mkGate gateInfo selectedQubit s).
    repeat split; try done.
    intros (g & Hcell & Hg)%list_elem_of_fmap. unfold cell in Hcell.
    simpl in Hcell. injection Hcell as Hq Hst.
    specialize (Hlast g Hg ltac:(done)). lia.
Qed.

Lemma handleGateSelect_appends_witness :
  ∃ newGate, Page.handleGateSelect circuit0 0 "H" = circuit0 ++ [newGate]
             ∧ step newGate = 2.
Proof.
  destruct (handleGateSelect_appends circuit0 0 "H") as [_ Hroom].
  destruct Hroom as (newGate & Heq & _); [simpl; lia|].
  exists newGate. split; [exact Heq|].
  apply (f_equal (λ l, step <$> last l)) in Heq.
  rewrite last_snoc in Heq. by injection Heq.
Defined.

(** ** The circuits the page builds *)

Lemma handleGateRemove_cases gates gateId newGates :
  Page.handleGateRemove gates gateId = Some newGates →
  newGates = gates
  ∨ ∃ q s, newGates = filter (λ g, ¬ (qubit g = q ∧ step g = s)) gates.
Proof.
  unfold Page.handleGateRemove.
  destruct (JSString.split "-" gateId) as [|qubitPart [|stepPart rest]];
    [by intros [= <-]; left..|].
  destruct (JSString.Number qubitPart) as [q|]; [|done].
  destruct (JSString.Number stepPart) as [s|]; [|done].
  simpl. intros [= <-]. right. by exists q, s.
Qed.

Lemma NoDup_fmap_filter {A B} `{!EqDecision B} (f : A → B) (P : A → Prop)
    `{!∀ x, Decision (P x)} (l : list A) :
  NoDup (f <$> l) → NoDup (f <$> filter P l).
Proof.
  induction l as [|x l IH]; [done|]. rewrite fmap_cons, NoDup_cons.
  intros [Hx Hl]. rewrite filter_cons. destruct (decide (P x)); [|by apply IH].
  rewrite fmap_cons. apply NoDup_cons. split; [|by apply IH].
  intros (y & Hy & [_ Hin]%list_elem_of_filter)%list_elem_of_fmap.
  apply Hx. apply list_elem_of_fmap. by exists y.
Qed.

Lemma built_length (gates : list QuantumGate) :
  built gates → Z.of_nat (length gates) ≤ 20.
Proof.
  induction 1 as [|gates q sym _ Hlen Hq|gates gateId newGates _ Hlen Hrem].
  - simpl. lia.
  - destruct (handleGateSelect_cases gates q sym)
      as [[Hfull ->]|(Hroom & s & -> & _)]; [done|].
    rewrite length_app. simpl. lia.
  - destruct (handleGateRemove_cases gates gateId newGates Hrem)
      as [->|(q & s & ->)]; [done|].
    pose proof (length_filter (λ g, ¬ (qubit g = q ∧ step g = s)) gates). lia.
Qed.

(** X19.  Every circuit the page builds has at most 20 placements, no two of
    them in one cell, and none at a negative step or on a negative qubit:
    the guard of [handleGateSelect] and the step it chooses keep this, and
    [handleGateRemove] only takes placements away. *)
Theorem built_invariant (gates : list QuantumGate) :
  built gates →
  Z.of_nat (length gates) ≤ 20
  ∧ NoDup (cell <$> gates)
  ∧ Forall (λ g, 0 ≤ qubit g ∧ 0 ≤ step g) gates.
Proof.
  induction 1 as [|gates q sym _ (Hlen & Hdup & Hall) Hq
                  |gates gateId newGates _ (Hlen & Hdup & Hall) Hrem].
  - repeat split; [simpl; lia|constructor|constructor].
  - destruct (handleGateSelect_cases gates q sym)
      as [[Hfull ->]|(Hroom & s & -> & Hs & Hlast & _)]; [done|].
    repeat split.
    + rewrite length_app. simpl. lia.
    + rewrite fmap_app. apply NoDup_app. repeat split; [done| |apply NoDup_singleton].
      intros c (g & -> & Hg)%list_elem_of_fmap Hc.
      apply list_elem_of_singleton in Hc. injection Hc as Hcq Hcs.
      specialize (Hlast g Hg Hcq). lia.
    + apply Forall_app. split; [done|]. by repeat constructor.
  - destruct (handleGateRemove_cases gates gateId newGates Hrem)
      as [->|(q & s & ->)]; [done|].
    repeat split.
    + pose proof (length_filter (λ g, ¬ (qubit g = q ∧ step g = s)) gates). lia.
    + by apply NoDup_fmap_filter.
    + apply Forall_forall. intros g [_ Hg]%list_elem_of_filter.
      by apply (proj1 (Forall_forall _ _) Hall).
Qed.

Lemma built_invariant_witness :
  built [mkGate "H" 0 0; mkGate "S" 0 1]
  ∧ NoDup (cell <$> [mkGate "H" 0 0; mkGate "S" 0 1]).
Proof.
  assert (built [mkGate "H" 0 0; mkGate "S" 0 1]) as Hb.
  { apply (built_select [mkGate "H" 0 0] 0 "S"); [|lia].
    apply (built_select [] 0 "H"); [|lia]. apply built_empty. }
  split; [exact Hb|]. exact (proj1 (proj2 (built_invariant _ Hb))).
Defined.

(** ** The identifier of a placement, written and read back *)

Lemma dashFree_uint (d : uint) : dashFree (NilEmpty.string_of_uint d).
Proof. induction d; simpl; [done|split; [discriminate|done]..]. Qed.

Lemma split_dashFree (s : string) : dashFree s → JSString.split "-" s = [s].
Proof.
  induction s as [|c s IH]; [done|]. intros [Hc Hs]. simpl.
  destruct (Ascii.eqb_spec c "-"); [done|]. by rewrite IH.
Qed.

Lemma split_dash (a b : string) :
  dashFree a → dashFree b →
  JSString.split "-" (String.append a (String "-" b)) = [a; b].
Proof.
  intros Ha Hb. induction a as [|c a IH]; simpl.
  - by rewrite split_dashFree.
  - destruct Ha as [Hc Ha]. destruct (Ascii.eqb_spec c "-"); [done|].
    by rewrite IH.
Qed.

(** A number from 0 to [2^53] is written in digits, and the digits are
    read back as the number. *)
Lemma ofNumber_digits (z : Z) :
  0 ≤ z ≤ 2 ^ 53 →
  ∃ s, JSString.ofNumber z = Some s ∧ dashFree s ∧ JSString.Number s = Some z.
Proof.
  intros Hz. unfold JSString.ofNumber.
  destruct (Z.ltb_spec (2 ^ 53) (Z.abs z)) as [Hbig|_]; [lia|].
  pose proof (DecimalZ.of_to z) as Hback.
  destruct z as [|p|p]; [| |lia]; simpl in *.
  - exists "0"%string. split; [done|]. split; [by split|done].
  - exists (NilEmpty.string_of_uint (Pos.to_uint p)).
    assert (NilZero.string_of_uint (Pos.to_uint p)
            = NilEmpty.string_of_uint (Pos.to_uint p)) as ->.
    { pose proof (Unsigned.to_uint_nonnil p).
      by destruct (Pos.to_uint p). }
    split; [done|]. split; [apply dashFree_uint|].
    unfold JSString.Number. rewrite NilEmpty.usu, Hback.
    destruct (Z.leb_spec (Z.pos p) (2 ^ 53)); [done|lia].
Qed.

(** X20.  A click on the badge of a placement removes it.  For a placement of
    the circuit on a qubit and at a step from 0 to [2^53], the identifier
    the builder writes is read back by [handleGateRemove] as the cell of
    the placement: the handler removes the placements of that cell and no
    other, and when no two placements share a cell it removes this one
    alone. *)
Theorem click_removes_the_placement (gates : list QuantumGate) (g : QuantumGate) :
  g ∈ gates → 0 ≤ qubit g ≤ 2 ^ 53 → 0 ≤ step g ≤ 2 ^ 53 →
  ∃ gateId newGates,
    Builder.gateId g = Some gateId
    ∧ Page.handleGateRemove gates gateId = Some newGates
    ∧ newGates = filter (λ g', cell g' ≠ cell g) gates
    ∧ (NoDup (cell <$> gates) →
       ∀ l1 l2, gates = l1 ++ g :: l2 → newGates = l1 ++ l2).
Proof.
  intros Hin Hq Hs.
  destruct (ofNumber_digits (qubit g) Hq) as (sq & Hsq & Hdq & Hnq).
  destruct (ofNumber_digits (step g) Hs) as (ss & Hss & Hds & Hns).
  assert (∀ g', ¬ (qubit g' = qubit g ∧ step g' = step g) ↔ cell g' ≠ cell g)
    as Hcell.
  { intros g'. unfold cell. split.
    - intros Hne [= ? ?]. by apply Hne.
    - intros Hne [? ?]. apply Hne. by f_equal. }
  exists (String.append sq (String "-" ss)),
    (filter (λ g', cell g' ≠ cell g) gates).
  split; [|split; [|split]].
  - unfold Builder.gateId. rewrite Hsq, Hss. reflexivity.
  - unfold Page.handleGateRemove. rewrite split_dash by done.
    rewrite Hnq, Hns. simpl. f_equal. apply list_filter_iff, Hcell.
  - done.
  - intros Hdup l1 l2 ->. rewrite fmap_app, fmap_cons in Hdup.
    apply NoDup_app in Hdup as (_ & Hl1 & [Hl2 _]%NoDup_cons).
    rewrite filter_app, filter_cons.
    destruct (decide (cell g ≠ cell g)); [done|].
    rewrite !filter_all; [done|..]; apply Forall_forall; intros g' Hg' Heq.
    + apply Hl2. rewrite <- Heq. by apply list_elem_of_fmap_2.
    + apply (Hl1 (cell g')); [by apply list_elem_of_fmap_2|].
      rewrite Heq. by apply elem_of_cons; left.
Qed.

Lemma click_removes_the_placement_witness :
  Builder.gateId (mkGate "S" 0 1) = Some "0-1"%string
  ∧ Page.handleGateRemove circuit0 "0-1"
    = Some [mkGate "H" 0 0; mkGate "Pₓ" 1 0].
Proof.
  destruct (click_removes_the_placement circuit0 (mkGate "S" 0 1))
    as (gateId & newGates & Hid & Hrem & -> & _).
  - unfold circuit0. repeat constructor.
  - simpl. lia.
  - simpl. lia.
  - assert (gateId = "0-1"%string) as -> by (by injection Hid).
    split; [reflexivity|]. rewrite Hrem. reflexivity.
Defined.

(** ** The grid of the builder *)

Lemma find_NoDup (gates : list QuantumGate) (g : QuantumGate) :
  NoDup (cell <$> gates) → g ∈ gates →
  Builder.getGateAtPosition gates (qubit g) (step g) = Some g.
Proof.
  unfold Builder.getGateAtPosition.
  induction gates as [|g' gates IH]; intros Hdup Hin; [by inversion Hin|].
  rewrite fmap_cons in Hdup. apply NoDup_cons in Hdup as [Hg' Hdup].
  simpl. destruct (Z.eqb_spec (qubit g') (qubit g)) as [Hq|Hq],
    (Z.eqb_spec (step g') (step g)) as [Hs|Hs]; simpl.
  - apply elem_of_cons in Hin as [->|Hin]; [done|]. exfalso. apply Hg'.
    apply list_elem_of_fmap. exists g. split; [|done]. unfold cell. congruence.
  - apply elem_of_cons in Hin as [->|Hin]; [done|]. by apply IH.
  - apply elem_of_cons in Hin as [->|Hin]; [done|]. by apply IH.
  - apply elem_of_cons in Hin as [->|Hin]; [done|]. by apply IH.
Qed.

Lemma find_none (gates : list QuantumGate) (q s : Z) :
  Forall (λ g, step g ≠ s) gates → Builder.getGateAtPosition gates q s = None.
Proof.
  unfold Builder.getGateAtPosition. induction 1 as [|g gates Hg _ IH]; [done|].
  simpl. destruct (Z.eqb_spec (step g) s); [done|]. by rewrite andb_false_r.
Qed.

(** X21.  The grid shows every placement.  When no two placements share a cell,
    a placement at a step from 0 on is found in its cell, and its column
    is one of the [maxSteps] columns drawn; the grid has at least 8
    columns, and its last column is always free. *)
Theorem grid_shows_every_placement (gates : list QuantumGate) :
  8 ≤ Builder.maxSteps gates
  ∧ (∀ qubit, Builder.getGateAtPosition gates qubit (Builder.maxSteps gates - 1)
              = None)
  ∧ (NoDup (cell <$> gates) →
     ∀ g, g ∈ gates → 0 ≤ step g →
       0 ≤ step g < Builder.maxSteps gates - 1
       ∧ Builder.getGateAtPosition gates (qubit g) (step g) = Some g).
Proof.
  assert (Builder.maxSteps gates
          = Z.max 8 (JS.Math_max (step <$> gates) 0 + 2)) as Hmax by reflexivity.
  assert (∀ g, g ∈ gates → step g < Builder.maxSteps gates - 1) as Hlt.
  { intros g Hg.
    pose proof (Math_max_ge (step <$> gates) 0 (step g)
                  ltac:(by apply list_elem_of_fmap_2)). lia. }
  split; [lia|]. split.
  - intros q. apply find_none, Forall_forall. intros g Hg.
    specialize (Hlt g Hg). lia.
  - intros Hdup g Hg Hs. split; [by split; [|apply Hlt]|by apply find_NoDup].
Qed.

Lemma grid_shows_every_placement_witness :
  NoDup (cell <$> circuit0)
  ∧ Builder.getGateAtPosition circuit0 0 1 = Some (mkGate "S" 0 1).
Proof.
  assert (NoDup (cell <$> circuit0)) as Hdup.
  { unfold circuit0. simpl. repeat (apply NoDup_cons; split);
      [rewrite !elem_of_cons; intros [?|[?|?%elem_of_nil]]; done
      |rewrite !elem_of_cons; intros [?|?%elem_of_nil]; done
      |rewrite elem_of_nil; tauto|apply NoDup_nil_2]. }
  split; [exact Hdup|].
  destruct (grid_shows_every_placement circuit0) as (_ & _ & Hshow).
  apply (Hshow Hdup (mkGate "S" 0 1)); [|simpl; lia].
  unfold circuit0. repeat constructor.
Defined.

(** ** The validator *)

(** The symbols the validator supports are the ones the runs apply. *)
Lemma includes_library (symbol : string) :
  Validation.includes ["Pₓ"; "Pᵧ"; "Pᵨ"; "H"; "S"] symbol = true
  ↔ is_Some (libraryEntry symbol).
Proof.
  unfold Validation.includes, libraryEntry. simpl.
  repeat (destruct (String.eqb symbol _); [by split; [eexists|]|]).
  split; [done|by intros [? ?]].
Qed.

(** The messages of [validateCircuit], one list per check. *)
Lemma validateCircuit_parts gates numQubits vs :
  Validation.validateCircuit gates numQubits = Some vs →
  ∃ empty complex large deep unsupported single good hilbert,
    vs = empty ++ complex ++ large ++ deep ++ unsupported ++ single ++ good
         ++ hilbert
    ∧ Forall (λ v, Validation.type v = Validation.info
                   ∧ Validation.message v = "Empty circuit"%string) empty
    ∧ Forall (λ v, Validation.type v = Validation.error
                   ∧ Validation.message v = "Circuit too complex"%string
                   ∧ 20 < Z.of_nat (length gates)) complex
    ∧ Forall (λ v, Validation.type v = Validation.warning
                   ∧ Validation.message v = "Large circuit detected"%string) large
    ∧ Forall (λ v, Validation.type v = Validation.warning
                   ∧ Validation.message v = "Deep circuit"%string) deep
    ∧ Forall (λ v, Validation.type v = Validation.warning
                   ∧ ∃ g, g ∈ gates ∧ libraryEntry (symbol g) = None) unsupported
    ∧ ((∃ g, g ∈ gates ∧ libraryEntry (symbol g) = None) →
       ∃ v, unsupported = [v]
            ∧ Validation.message v = "Unsupported gates detected"%string)
    ∧ Forall (λ v, Validation.type v = Validation.info
                   ∧ Validation.message v = "Single qubit circuit"%string) single
    ∧ Forall (λ v, Validation.type v = Validation.success
                   ∧ Validation.message v = "Good quantum circuit"%string) good
    ∧ Forall (λ v, Validation.type v = Validation.warning
                   ∧ Validation.message v = "Large Hilbert space"%string) hilbert.
Proof.
  unfold Validation.validateCircuit. cbv zeta.
  set (unsupportedGates :=
         filter (λ gate, ¬ Validation.includes ["Pₓ"; "Pᵧ"; "Pᵨ"; "H"; "S"]
                             (symbol gate)) gates).
  assert (∀ g, g ∈ unsupportedGates ↔ g ∈ gates ∧ libraryEntry (symbol g) = None)
    as Hun.
  { intros g. unfold unsupportedGates. rewrite list_elem_of_filter.
    pose proof (includes_library (symbol g)) as Hlib.
    destruct (Validation.includes _ (symbol g)); simpl.
    - destruct (proj1 Hlib eq_refl) as [m ->].
      split; [by intros [Hn _]; destruct Hn|by intros [_ ?]].
    - destruct (libraryEntry (symbol g)) as [m|].
      + assert (false = true) by (apply Hlib; eauto). done.
      + split; [by intros [_ ?]|by intros [? _]; split; [intros []|]]. }
  intros Hvs.
  destruct (if 10 <? maxDepth gates then _ else Some []) as [deep|] eqn:Hdeep;
    [|done].
  cbn [mbind option_bind] in Hvs.
  destruct (if 0 <? Z.of_nat (length unsupportedGates) then _ else Some [])
    as [unsupported|] eqn:Hunsupported; [|done].
  cbn [mbind option_bind] in Hvs.
  destruct (if 32 <? 2 ^ numQubits then _ else Some []) as [hilbert|] eqn:Hhilbert;
    [|done].
  cbn [mbind option_bind] in Hvs. injection Hvs as <-.
  do 3 eexists. exists deep, unsupported. do 2 eexists. exists hilbert.
  split; [reflexivity|].
  split; [by destruct (_ =? 0); repeat constructor|].
  split; [by destruct (Z.ltb_spec 20 (Z.of_nat (length gates))); repeat constructor|].
  split; [by destruct (15 <? _); repeat constructor|].
  split.
  { destruct (10 <? maxDepth gates); [|by simplify_eq].
    destruct (JSString.ofNumber (maxDepth gates)); [|done].
    cbn [mbind option_bind] in Hdeep. simplify_eq. by repeat constructor. }
  assert (unsupportedGates = [] ∨ ∃ g, g ∈ gates ∧ libraryEntry (symbol g) = None)
    as Hsome.
  { destruct unsupportedGates as [|g gs] eqn:Hgs; [by left|right].
    exists g. apply Hun. by left. }
  split; [|split].
  { destruct (0 <? Z.of_nat (length unsupportedGates)) eqn:Hpos; [|by simplify_eq].
    apply Z.ltb_lt in Hpos.
    destruct (JSString.ofNumber (Z.of_nat (length unsupportedGates))); [|done].
    cbn [mbind option_bind] in Hunsupported. simplify_eq.
    repeat constructor. destruct Hsome as [Hnil|Hg]; [|done].
    rewrite Hnil in Hpos. simpl in Hpos. lia. }
  { intros (g & Hg). apply Hun in Hg.
    destruct (0 <? Z.of_nat (length unsupportedGates)) eqn:Hpos.
    - destruct (JSString.ofNumber (Z.of_nat (length unsupportedGates))); [|done].
      cbn [mbind option_bind] in Hunsupported. simplify_eq. by eexists.
    - apply Z.ltb_ge in Hpos.
      destruct unsupportedGates; [by inversion Hg|simpl in Hpos; lia]. }
  split; [by destruct (_ && _); repeat constructor|].
  split; [by destruct (_ && _); repeat constructor|].
  { destruct (32 <? 2 ^ numQubits); [|by simplify_eq].
    destruct (JSString.ofNumber (2 ^ numQubits)); [|done].
    cbn [mbind option_bind] in Hhilbert. simplify_eq. by repeat constructor. }
Qed.

(** X22.  The validator and the runs agree on the symbols.  The warning
    [Unsupported gates detected] is among the messages exactly when the
    circuit has a placement whose symbol the runs skip. *)
Theorem validator_agrees_with_runs (gates : list QuantumGate) (numQubits : Z)
    (validations : list Validation.ValidationResult) :
  Validation.validateCircuit gates numQubits = Some validations →
  (∃ v, v ∈ validations
        ∧ Validation.message v = "Unsupported gates detected"%string)
  ↔ (∃ g, g ∈ gates ∧ libraryEntry (symbol g) = None).
Proof.
  intros Hvs.
  destruct (validateCircuit_parts gates numQubits validations Hvs)
    as (empty & complex & large & deep & unsupported & single & good & hilbert
        & -> & Hempty & Hcomplex & Hlarge & Hdeep & Hun & Hmade & Hsingle
        & Hgood & Hhilbert).
  split.
  - intros (v & Hv & Hmsg). rewrite !elem_of_app in Hv.
    pose proof (λ (P : Validation.ValidationResult → Prop) l (H : Forall P l),
                  proj1 (Forall_forall P l) H v) as Hall.
    destruct Hv as [Hv|[Hv|[Hv|[Hv|[Hv|[Hv|[Hv|Hv]]]]]]].
    + apply (Hall _ _ Hempty) in Hv as [_ Hv]. congruence.
    + apply (Hall _ _ Hcomplex) in Hv as (_ & Hv & _). congruence.
    + apply (Hall _ _ Hlarge) in Hv as [_ Hv]. congruence.
    + apply (Hall _ _ Hdeep) in Hv as [_ Hv]. congruence.
    + by apply (Hall _ _ Hun) in Hv as [_ Hv].
    + apply (Hall _ _ Hsingle) in Hv as [_ Hv]. congruence.
    + apply (Hall _ _ Hgood) in Hv as [_ Hv]. congruence.
    + apply (Hall _ _ Hhilbert) in Hv as [_ Hv]. congruence.
  - intros Hg. destruct (Hmade Hg) as (v & -> & Hmsg). exists v.
    split; [|done]. rewrite !elem_of_app. do 4 right. left. by left.
Qed.

Lemma validator_agrees_with_runs_witness :
  ∃ v, v ∈ [Validation.mkResult Validation.warning "Unsupported gates detected"
              "1 gates may not execute properly: S⁻¹"]
       ∧ Validation.message v = "Unsupported gates detected"%string.
Proof.
  apply (validator_agrees_with_runs [mkGate "S⁻¹" 0 0] 1 _ eq_refl).
  eexists. split; [by left|reflexivity].
Defined.

(** X23.  The error of the validator is out of reach.  On a circuit the page
    builds no message is an error: [handleGateSelect] stops at the 20
    placements above which the validator reports [Circuit too complex]. *)
Theorem built_circuits_pass_validation (gates : list QuantumGate) (numQubits : Z)
    (validations : list Validation.ValidationResult) :
  built gates →
  Validation.validateCircuit gates numQubits = Some validations →
  Forall (λ v, Validation.type v ≠ Validation.error) validations.
Proof.
  intros Hbuilt Hvs. pose proof (built_length gates Hbuilt) as Hlen.
  destruct (validateCircuit_parts gates numQubits validations Hvs)
    as (empty & complex & large & deep & unsupported & single & good & hilbert
        & -> & Hempty & Hcomplex & Hlarge & Hdeep & Hun & _ & Hsingle
        & Hgood & Hhilbert).
  rewrite !Forall_app. repeat split;
    (eapply Forall_impl; [eassumption|]); simpl; intros v Hv;
    destruct Hv as [Hv ?]; try congruence.
  lia.
Qed.

Lemma built_circuits_pass_validation_witness :
  built [mkGate "H" 0 0]
  ∧ Forall (λ v, Validation.type v ≠ Validation.error)
      [Validation.mkResult Validation.info "Single qubit circuit"
         "Only one qubit is being used. Consider exploring multi-qubit operations"].
Proof.
  assert (built [mkGate "H" 0 0]) as Hb
    by (apply (built_select [] 0 "H"); [apply built_empty|lia]).
  split; [exact Hb|].
  exact (built_circuits_pass_validation [mkGate "H" 0 0] 3 _ Hb eq_refl).
Defined.

(** ** The step controls *)

Lemma maxSteps_pos gates : 1 ≤ Controls.maxSteps gates.
Proof.
  unfold Controls.maxSteps. pose proof (Math_max_init (step <$> gates) 0). lia.
Qed.

(** X24.  The buttons and the handlers agree.  With the current step between 0
    and the depth, the button that steps forward is disabled exactly when
    [handleStepForward] would not move, and likewise back; a handler that
    moves shows the run up to the new step, which is again between 0 and
    the depth; and stepping back undoes stepping forward. *)
Theorem step_buttons_agree (numQubits currentStep : Z) (gates : list QuantumGate) :
  0 ≤ currentStep ≤ totalSteps gates →
  (if Controls.forwardDisabled gates currentStep
   then Page.handleStepForward numQubits currentStep gates = (currentStep, None)
        ∧ currentStep = totalSteps gates
   else Page.handleStepForward numQubits currentStep gates
        = (currentStep + 1,
           Some (Page.updateSteppedState numQubits (currentStep + 1) gates))
        ∧ currentStep + 1 ≤ totalSteps gates
        ∧ fst (Page.handleStepBack numQubits (currentStep + 1) gates) = currentStep)
  ∧ (if Controls.backDisabled currentStep
     then Page.handleStepBack numQubits currentStep gates = (currentStep, None)
          ∧ currentStep = 0
     else Page.handleStepBack numQubits currentStep gates
          = (currentStep - 1,
             Some (Page.updateSteppedState numQubits (currentStep - 1) gates))
          ∧ 0 ≤ currentStep - 1
          ∧ fst (Page.handleStepForward numQubits (currentStep - 1) gates)
            = currentStep).
Proof.
  intros Hs. unfold Controls.forwardDisabled, Controls.backDisabled,
    Page.handleStepForward, Page.handleStepBack, Controls.maxSteps.
  fold (totalSteps gates). split.
  - destruct (Z.geb_spec currentStep (totalSteps gates)),
      (Z.ltb_spec currentStep (totalSteps gates)); try lia.
    + split; [done|lia].
    + split; [done|]. split; [lia|].
      destruct (Z.ltb_spec 0 (currentStep + 1)); cbn [fst]; lia.
  - destruct (Z.eqb_spec currentStep 0), (Z.ltb_spec 0 currentStep); try lia.
    + done.
    + split; [done|]. split; [lia|].
      destruct (Z.ltb_spec (currentStep - 1) (totalSteps gates)); cbn [fst]; lia.
Qed.

Lemma step_buttons_agree_witness :
  0 ≤ 1 ≤ totalSteps circuit0
  ∧ Page.handleStepForward 2 1 circuit0
    = (2, Some (Page.updateSteppedState 2 2 circuit0)).
Proof.
  assert (0 ≤ 1 ≤ totalSteps circuit0) as Hs by (by vm_compute).
  split; [exact Hs|].
  destruct (step_buttons_agree 2 1 circuit0 Hs) as [Hfwd _].
  exact (proj1 Hfwd).
Defined.

(** X25.  The progress text.  Because the depth is at least 1, the line
    [No gates in circuit] is never shown, not even for the empty circuit;
    for a step from 0 on exactly one of the other three lines is shown. *)
Theorem progress_text (gates : list QuantumGate) (currentStep : Z)
    (lines : list string) :
  Controls.progressInfo gates currentStep = Some lines →
  ("No gates in circuit"%string ∉ lines)
  ∧ (0 ≤ currentStep → length lines = 1%nat).
Proof.
  unfold Controls.progressInfo. cbv zeta. pose proof (maxSteps_pos gates) as Hmax.
  destruct (Z.eqb_spec (Controls.maxSteps gates) 0) as [|_]; [lia|].
  destruct (Z.ltb_spec 0 (Controls.maxSteps gates)) as [_|]; [|lia].
  destruct (Z.eqb_spec currentStep 0), (Z.ltb_spec 0 currentStep),
    (Z.ltb_spec currentStep (Controls.maxSteps gates)),
    (Z.geb_spec currentStep (Controls.maxSteps gates)); try lia;
    cbn [andb];
    try (destruct (JSString.ofNumber currentStep) as [current|]; [|done];
         destruct (JSString.ofNumber (Controls.maxSteps gates)) as [total|]; [|done]);
    cbn [mbind option_bind app]; intros [= <-];
    (split; [|try done; intros; lia]);
    rewrite ?elem_of_cons, ?elem_of_nil; intros Hin;
    repeat (destruct Hin as [Hin|Hin]); try done.
  all: apply (f_equal (λ s, String.get 0 s)) in Hin; done.
Qed.

Lemma progress_text_witness :
  Controls.progressInfo [] 0 = Some ["Initial state: All qubits in |0⟩"%string]
  ∧ "No gates in circuit"%string ∉ ["Initial state: All qubits in |0⟩"%string].
Proof.
  split; [reflexivity|].
  exact (proj1 (progress_text [] 0 _ eq_refl)).
Defined.

Lemma find_some_step (gates : list QuantumGate) (s : Z) (g : QuantumGate) :
  Controls.currentGate gates s = Some g → g ∈ gates ∧ step g = s.
Proof.
  unfold Controls.currentGate. induction gates as [|g' gates IH]; [done|].
  simpl. destruct (Z.eqb_spec (step g') s).
  - intros [= <-]. split; [by left|done].
  - intros Hg. destruct (IH Hg). split; [by right|done].
Qed.

(** X26.  The panel of the step controls describes a placement of the current
    step.  The stepped run applies the placements below the current step
    only, so the placement the panel describes has not been applied to the
    state shown beside it; and at the depth of the circuit the panel
    describes nothing. *)
Theorem panel_describes_the_next_placement (gates : list QuantumGate)
    (currentStep : Z) :
  (∀ g, Controls.currentGate gates currentStep = Some g →
        g ∈ gates ∧ step g = currentStep
        ∧ (g ∉ filter (λ g, step g < currentStep) (sortByStep gates))
        ∧ currentStep < Controls.maxSteps gates)
  ∧ Controls.currentGate gates (Controls.maxSteps gates) = None.
Proof.
  assert (∀ g, g ∈ gates → step g < Controls.maxSteps gates) as Hlt.
  { intros g Hg. apply (proj1 (Forall_forall _ _) (steps_below_total gates) g Hg). }
  split.
  - intros g [Hin Hs]%find_some_step. repeat split; [done..| |].
    + intros [Hlow _]%list_elem_of_filter. lia.
    + specialize (Hlt g Hin). lia.
  - destruct (Controls.currentGate gates _) as [g|] eqn:Hg; [|done].
    apply find_some_step in Hg as [Hin Hs]. specialize (Hlt g Hin). lia.
Qed.

(** ** The labels of the basis states *)

Lemma pos_size_bounds (p : positive) :
  2 ^ (Z.of_nat (Pos.size_nat p) - 1) ≤ Z.pos p < 2 ^ Z.of_nat (Pos.size_nat p).
Proof.
  induction p as [p IH|p IH|]; [| |simpl; lia].
  - cbn [Pos.size_nat]. rewrite Nat2Z.inj_succ, (Pos2Z.inj_xI p).
    replace (Z.succ (Z.of_nat (Pos.size_nat p)) - 1)
      with (Z.succ (Z.of_nat (Pos.size_nat p) - 1)) by lia.
    assert (1 ≤ Z.of_nat (Pos.size_nat p)) by (destruct p; simpl; lia).
    rewrite !Z.pow_succ_r by lia. lia.
  - cbn [Pos.size_nat]. rewrite Nat2Z.inj_succ, (Pos2Z.inj_xO p).
    replace (Z.succ (Z.of_nat (Pos.size_nat p)) - 1)
      with (Z.succ (Z.of_nat (Pos.size_nat p) - 1)) by lia.
    assert (1 ≤ Z.of_nat (Pos.size_nat p)) by (destruct p; simpl; lia).
    rewrite !Z.pow_succ_r by lia. lia.
Qed.

Lemma get_binaryDigits (p : positive) (rest : string) (i : nat) :
  String.get i (JSString.binaryDigits p rest)
  = if (i <? Pos.size_nat p)%nat
    then Some (if Z.testbit (Z.pos p) (Z.of_nat (Pos.size_nat p - 1 - i))
               then "1" else "0")%char
    else String.get (i - Pos.size_nat p) rest.
Proof.
  revert rest i. induction p as [p IH|p IH|]; intros rest i.
  - cbn [JSString.binaryDigits Pos.size_nat]. rewrite IH.
    destruct (Nat.ltb_spec i (Pos.size_nat p)), (Nat.ltb_spec i (S (Pos.size_nat p)));
      try lia.
    + replace (S (Pos.size_nat p) - 1 - i)%nat
        with (S (Pos.size_nat p - 1 - i)) by lia.
      rewrite Nat2Z.inj_succ, (Pos2Z.inj_xI p), Z.testbit_odd_succ by lia. done.
    + replace i with (Pos.size_nat p) by lia.
      replace (S (Pos.size_nat p) - 1 - Pos.size_nat p)%nat with 0%nat by lia.
      by rewrite Nat.sub_diag.
    + replace (i - Pos.size_nat p)%nat with (S (i - S (Pos.size_nat p))) by lia.
      done.
  - cbn [JSString.binaryDigits Pos.size_nat]. rewrite IH.
    destruct (Nat.ltb_spec i (Pos.size_nat p)), (Nat.ltb_spec i (S (Pos.size_nat p)));
      try lia.
    + replace (S (Pos.size_nat p) - 1 - i)%nat
        with (S (Pos.size_nat p - 1 - i)) by lia.
      rewrite Nat2Z.inj_succ, (Pos2Z.inj_xO p), Z.testbit_even_succ by lia. done.
    + replace i with (Pos.size_nat p) by lia.
      replace (S (Pos.size_nat p) - 1 - Pos.size_nat p)%nat with 0%nat by lia.
      by rewrite Nat.sub_diag.
    + replace (i - Pos.size_nat p)%nat with (S (i - S (Pos.size_nat p))) by lia.
      done.
  - cbn [JSString.binaryDigits Pos.size_nat]. destruct i as [|i]; [done|].
    simpl. by rewrite Nat.sub_0_r.
Qed.

Lemma length_binaryDigits (p : positive) (rest : string) :
  String.length (JSString.binaryDigits p rest)
  = (Pos.size_nat p + String.length rest)%nat.
Proof.
  revert rest. induction p as [p IH|p IH|]; intros rest; simpl; [| |done];
    rewrite IH; simpl; lia.
Qed.

Lemma get_iter_pad (k : nat) (pad : ascii) (s : string) (j : nat) :
  String.get j (Nat.iter k (String pad) s)
  = if (j <? k)%nat then Some pad else String.get (j - k) s.
Proof.
  revert j. induction k as [|k IH]; intros j; [by rewrite Nat.sub_0_r|].
  rewrite Nat.iter_succ. destruct j as [|j]; [done|]. simpl. rewrite IH.
  destruct (Nat.ltb_spec j k), (Nat.ltb_spec (S j) (S k)); (done || lia).
Qed.

(** The digits of the padded label, from the left. *)
Lemma get_padded (n index : Z) (q : nat) :
  0 ≤ index < 2 ^ n → Z.of_nat q < n →
  String.get q (JSString.padStart n "0" (JSString.toString2 index))
  = Some (if Z.testbit index (n - 1 - Z.of_nat q) then "1" else "0")%char.
Proof.
  intros Hi Hq. unfold JSString.padStart. rewrite get_iter_pad.
  destruct index as [|p|p]; [| |lia].
  - rewrite Z.bits_0. cbn [JSString.toString2 String.length].
    destruct (Nat.ltb_spec q (Z.to_nat (n - Z.of_nat 1))); [done|].
    replace (q - Z.to_nat (n - Z.of_nat 1))%nat with 0%nat by lia. done.
  - cbn [JSString.toString2]. rewrite length_binaryDigits. cbn [String.length].
    rewrite Nat.add_0_r. pose proof (pos_size_bounds p) as [Hlow Hhigh].
    assert (Z.of_nat (Pos.size_nat p) ≤ n) as Hsize.
    { destruct (Z.le_gt_cases (Z.of_nat (Pos.size_nat p)) n) as [|Hgt]; [done|].
      assert (2 ^ n ≤ 2 ^ (Z.of_nat (Pos.size_nat p) - 1))
        by (apply Z.pow_le_mono_r; lia). lia. }
    destruct (Nat.ltb_spec q (Z.to_nat (n - Z.of_nat (Pos.size_nat p)))) as [Hpad|Hdig].
    + rewrite (proj1 (Z.bounded_iff_bits_nonneg (Z.of_nat (Pos.size_nat p)) (Z.pos p)
                        ltac:(lia) ltac:(lia))); [done|exact Hhigh|lia].
    + rewrite get_binaryDigits.
      destruct (Nat.ltb_spec (q - Z.to_nat (n - Z.of_nat (Pos.size_nat p)))
                  (Pos.size_nat p)); [|lia].
      replace (Z.of_nat (Pos.size_nat p - 1
                         - (q - Z.to_nat (n - Z.of_nat (Pos.size_nat p)))))
        with (n - 1 - Z.of_nat q) by lia.
      done.
Qed.

Lemma get_append_cons (c : ascii) (s : string) (i : nat) :
  String.get (S i) (String.append (String c EmptyString) s) = String.get i s.
Proof. reflexivity. Qed.

Lemma get_append_left (s t : string) (i : nat) (c : ascii) :
  String.get i s = Some c → String.get i (String.append s t) = Some c.
Proof.
  revert i. induction s as [|a s IH]; intros i; [done|].
  destruct i as [|i]; simpl; [done|]. apply IH.
Qed.

(** X27.  The labels of the panel read the way the engine counts the qubits.
    In the label of the basis state [index] of [numQubits] qubits, the
    character for the qubit [q] (the one after the bar and [q] others) is
    the bit that [applyGate], [applyCNOT] and the partial trace read for
    that qubit: the bit [numQubits - 1 - q] of [index]. *)
Theorem labels_follow_the_qubit_order (numQubits index : Z) (q : nat) :
  0 ≤ index < 2 ^ numQubits → Z.of_nat q < numQubits →
  String.get (S q) (Panel.generateBasisStateLabel numQubits index)
  = Some (if Z.testbit index (numQubits - 1 - Z.of_nat q) then "1" else "0")%char
  ∧ (numQubits ≤ 31 →
     JS.band (JS.sar index (numQubits - 1 - Z.of_nat q)) 1
     = Z.b2z (Z.testbit index (numQubits - 1 - Z.of_nat q))).
Proof.
  intros Hi Hq. split.
  - unfold Panel.generateBasisStateLabel. rewrite get_append_cons.
    apply get_append_left. by apply get_padded.
  - intros Hn. apply (bitAt numQubits); [lia|lia|done].
Qed.

Lemma labels_follow_the_qubit_order_witness :
  Panel.generateBasisStateLabel 3 5 = "|101⟩"%string
  ∧ String.get 2 (Panel.generateBasisStateLabel 3 5) = Some "0"%char.
Proof.
  split; [reflexivity|].
  destruct (labels_follow_the_qubit_order 3 5 1) as [Hget _]; [lia|lia|].
  exact Hget.
Defined.
